(* ===== verification/_CoqProject ===== *)
-Q . S2P
Prelude.v
Board.v
Search.v
Solver.v
Counter.v
Generator.v
Stream.v
BoardIO.v
Advanced.v
Game.v
