(* ===== verification/Prelude.v ===== *)
(** * A verification development of the Sudoku engine of Ahmedheshammm/Sudoku-Game

    The repository is a C++ console game around a 9x9 Sudoku engine.  Its
    parts, leaf first, and how they call each other:

    - [SudokuBoard] (src/Sudoku/src/SudokuBoard.cpp): the grid, a
      [std::vector<std::vector<int>>], with the move check [isValidMove]
      and its three helpers, [setValue], [getValue], [isEmpty], [isFull],
      [clear], [initializeBoard] and the flat-file load/save.
    - [SudokuSolver] (src/SudokuSolver.cpp): [findEmptyCell], the
      backtracking [solveRecursive] that places and unplaces digits in the
      caller's board through [getBoard()], and [isValidBoard].
    - [SudokuGenerator] (src/Sudoku/src/SudokuGenerator.cpp): the capped
      solution counter [countSolutions] (on a copy of the board),
      [hasUniqueSolution], [fillDiagonalBox], [generateComplete] (which calls
      the solver and retries), [removeCells] (which calls the counter after
      every removal) and [generatePuzzle].
    - [SudokuAdvancedChecks] (src/SudokuAdvancedChecks.cpp): candidate sets,
      naked and hidden singles, the stubbed pair and locked-candidate
      techniques, and the fixpoint loop [solveWithAdvancedTechniques].
    - [SudokuGame] (src/Sudoku/src/SudokuGame.cpp): the console menu that
      dispatches to all of the above.

    ** Files, modules and what their theorems show

    - [Prelude] (this file): the [sudoku_scope] notations, integer ranges
      [upto] and [zrange], the digit list, the [sudoku] hint database, the
      tactics [zdiv], [bool_simpl] and [by_compute], and the generic lemmas
      on lists shared by the components (ranges, [forallb] over a range,
      disjoint [flat_map]s, the pigeonhole lemma on the digits, fold
      invariants, sorted filters).
    - [Board]: Module [Board] models [SudokuBoard]: the state is the nested
      list [board], read with [cell] (notation [b@[r, c]]) and written with
      [set_cell] (what [board[row][col] = v] does through [getBoard()]);
      each method is one definition, with the constructor [new_board] and
      [defaultPuzzle] of [SudokuGame::initializeDefaultPuzzle].  It states
      the rules of the game, the abstract specification the other files are
      proved against: [wf] (the 9x9 shape), [valid] (digits in 0..9, no
      repeated non-zero digit in a row, column or box), [complete],
      [extends] and [solution_of].  Theorems: [isValidMove] decides the
      rules, [setValue] writes exactly the legal moves and keeps a grid
      valid, [clear] empties the board; [initializeBoard] checks the shape
      of row 0 only.
    - [Search]: [findEmptyCell] and [solutions], the reference search tree
      (first empty cell in row-major order, digits 1..9 in order).  Its
      leaves are exactly the solutions of a valid grid, each once.
    - [Solver]: Module [Solver] models src/SudokuSolver.cpp: [solveRecursive]
      threads the caller's board through place, recurse and unplace;
      [isValidBoard] threads it through its remove/check/restore writes.
      Theorems: [solve] refines the reference search (its first leaf, or
      failure with the board restored), hence it is sound and complete on
      valid grids; it also reports success on a full grid that breaks the
      rules; [isValidBoard] decides [valid] and restores the board.
    - [Counter]: [countSolutions] (on its own copy of the board, with the
      shrinking budget) returns the number of leaves of the reference tree
      capped at the budget, hence [hasUniqueSolution] decides uniqueness on
      a valid grid, and then [solve] returns the unique solution.
    - [Generator]: the random source is the class [RandomSource] (its law:
      a shuffle is a permutation) with a deterministic instance for the
      concrete runs; [fillDiagonalBox], [generateComplete] (retrying a given
      number of times), [removeCells] and [generatePuzzle].  Theorems: the
      diagonal fill is valid, complete grids have every unit a permutation
      of 1..9, carving keeps the solution unique and removes at most the
      target, and a generated puzzle has all the properties of spec 8.
    - [Advanced]: Module [Advanced] models src/SudokuAdvancedChecks.cpp:
      candidate sets, naked and hidden singles as in-place loops, the
      placeholder techniques and the fixpoint loop.  The step relation
      [placements] records checked writes.  Theorems: every write of the
      solver is a checked placement, a pass keeps exactly the solutions of
      a valid grid and fills a cell when it reports progress, the loop
      ends, a reported success is the unique solution, and a second run
      changes nothing.
    - [Stream]: the C++ stream operations the program calls, from the C++
      standard (they are library code, not code of the repository):
      [operator>>] on [int] with what C++11 stores on failure, on
      [std::string], [ignore] to the end of the line, [operator<<] on
      [int]; [>>] reads back what [<<] wrote.
    - [BoardIO]: [loadFromFile], [saveToFile] and [printBoard] of
      [SudokuBoard] over that stream model.  Theorems: save then load gives
      the board back; a short file fails after filling the first cells; a
      file of any 81 integers is accepted, so a load can leave a board that
      breaks the rules.
    - [Game]: Module [Game] models [SudokuGame]: the fields [board] and
      [gameRunning] with the environment ([std::cin] as the characters left,
      [std::cout] as messages, the files, the random source) are the record
      [state]; each menu method is a function on it, [iteration] one turn
      of [run]'s loop.  Theorems: with files that hold saved valid boards every turn keeps the board valid (this
      uses the solver, the generator, the propagation solver and the file
      round trip together); the move entry writes exactly the legal moves;
      the exit option ends the loop; at the end of the input the loop runs
      forever.  The theorems hold for every choice of the two build flags
      [BUILD_GENERATOR] and [BUILD_ADVANCED]; the concrete runs use the
      plain build, the only one that compiles against
      src/Sudoku/src/SudokuGame.hpp, which declares neither
      [generateNewPuzzle] nor [solveWithAdvancedTechniques].

    ** Fuel

    Every recursion of the code is bounded by the empty cells, at most 81.
    [Solver.SOLVER_FUEL] (82) and the counter's fuel are one more than
    that, and [solveRecursive_terminates] shows they never run out on a
    9x9 board; [Advanced.ADVANCED_FUEL] (83) covers 81 productive passes,
    one pass without progress and the final test
    ([solveWithAdvancedTechniques_terminates]).  [generateComplete] is the
    one loop of the code with no bound (it retries forever); its model
    takes a number of attempts and returns [None] once they are used up,
    and so does a turn of [Game.iteration] that generates a puzzle.  The
    game loop [Game.run_loop] is given fuel: a game can run for ever, and
    does at the end of its input ([eof_loops_forever]).

    ** Not modelled

    The [mt19937] generator itself: the proofs assume only that
    [std::shuffle] permutes, and the concrete runs use a rotation.  The
    C++ stream library is modelled from the standard, not translated, and
    only as far as the program uses it (the classic locale, decimal
    [int]s, no [std::cin] state beyond the characters left: a failed
    extraction is always followed by [clear()] or happens at the end of
    the input).  The console texts are constructors of [Game.message],
    not strings.  The headers under src/ only declare what the [.cpp]
    files define, and are modelled with the code that uses them.

    ** Integers and bounds

    The C++ [int]s are [Z]: coordinates, digits and counters.  The values
    involved never leave [-1..81], so wrap-around of the 32-bit [int]
    cannot happen and is not modelled.  Loops over [0..8] are [upto 9]
    lists in the code's order; a nested loop over the cells is the
    row-major list [positions]. *)

From stdpp Require Export base list decidable.
From Stdlib Require Export ZArith Lia Sorted.

Declare Scope sudoku_scope.
Delimit Scope sudoku_scope with sudoku.
Open Scope Z_scope.

(** ** Integer ranges: the [for (int i = 0; i < n; i++)] loops *)

Definition upto (n : Z) : list Z := map Z.of_nat (seq 0 (Z.to_nat n)).

(** The digits 1..9 in the order the [for (num = 1; num <= 9; num++)]
    loops try them. *)
Definition digits : list Z := [1; 2; 3; 4; 5; 6; 7; 8; 9].
Arguments digits : simpl never.

Open Scope sudoku_scope.

Create HintDb sudoku discriminated.

(** [zdiv] closes linear goals over [Z] that mention [/] and [mod] by a
    constant (the box arithmetic [row / 3 * 3]). *)
Ltac zdiv := Z.div_mod_to_equations; lia.

(** [bool_simpl] turns the boolean tests of the code into propositions. *)
Ltac bool_simpl :=
  repeat match goal with
  | H : (_ && _)%bool = true |- _ => apply andb_prop in H as [? ?]
  | H : (_ || _)%bool = false |- _ => apply orb_false_elim in H as [? ?]
  | H : negb _ = true |- _ => apply negb_true_iff in H
  | H : negb _ = false |- _ => apply negb_false_iff in H
  | H : (_ =? _) = true |- _ => apply Z.eqb_eq in H
  | H : (_ =? _) = false |- _ => apply Z.eqb_neq in H
  | H : (_ <? _) = true |- _ => apply Z.ltb_lt in H
  | H : (_ <? _) = false |- _ => apply Z.ltb_ge in H
  | H : (_ >=? _) = false |- _ => rewrite Z.geb_leb in H; apply Z.leb_gt in H
  | H : (_ >? _) = false |- _ => rewrite Z.gtb_ltb in H; apply Z.ltb_ge in H
  end.

Lemma elem_upto (n x : Z) : In x (upto n) <-> 0 <= x < n.
Proof.
  unfold upto. rewrite in_map_iff. split.
  - intros (k & <- & Hk). apply in_seq in Hk. lia.
  - intros Hx. exists (Z.to_nat x). rewrite in_seq. split; lia.
Qed.

Lemma NoDup_upto (n : Z) : List.NoDup (upto n).
Proof.
  unfold upto. apply Finite.Injective_map_NoDup_in; [intros ?????; lia | apply seq_NoDup].
Qed.

Lemma forallb_upto (f : Z -> bool) (n : Z) :
  forallb f (upto n) = true <-> forall x, 0 <= x < n -> f x = true.
Proof.
  rewrite forallb_forall. setoid_rewrite elem_upto. reflexivity.
Qed.

Lemma elem_digits (v : Z) : In v digits <-> 1 <= v <= 9.
Proof.
  unfold digits; cbn. split; [intros H; repeat destruct H as [<- | H]; lia|lia].
Qed.

Lemma NoDup_digits : List.NoDup digits.
Proof. repeat constructor; simpl; lia. Qed.

#[export] Hint Resolve NoDup_upto NoDup_digits : sudoku.

(** ** Disjoint [flat_map]s: the branches of a search tree *)
Lemma NoDup_flat_map_disjoint {A B} (f : A -> list B) (l : list A) :
  List.NoDup l ->
  (forall a, In a l -> List.NoDup (f a)) ->
  (forall a a' x, In a l -> In a' l -> In x (f a) -> In x (f a') -> a = a') ->
  List.NoDup (flat_map f l).
Proof.
  induction l as [|a l IH]; simpl; intros Hl Hf Hdis; [constructor|].
  inversion Hl as [|? ? Hna Hl']; subst.
  apply NoDup_app; [apply Hf; auto|apply IH; eauto|].
  intros x Hx Hx'. apply in_flat_map in Hx' as (a' & Ha' & Hx').
  assert (a = a') as <- by (eapply Hdis; eauto). contradiction.
Qed.

(** ** The pigeonhole lemma on the digits

    Nine pairwise distinct digits of 1..9 are all of them: a complete row,
    column or box of a valid grid contains every digit. *)
Lemma digits_pigeonhole (l : list Z) :
  List.NoDup l -> length l = 9%nat -> (forall x, In x l -> 1 <= x <= 9) ->
  forall v, 1 <= v <= 9 -> In v l.
Proof.
  intros Hnd Hlen Hin v Hv.
  assert (Hincl : incl l digits) by (intros x Hx; apply elem_digits; auto).
  apply (NoDup_length_incl Hnd) in Hincl; [|by rewrite Hlen].
  apply Hincl, elem_digits, Hv.
Qed.

(** ** Reading a list after an in-place update *)
Lemma nth_insert {A} (l : list A) (i j : nat) (x d : A) :
  nth j (<[i:=x]> l) d = if decide (i = j /\ (i < length l)%nat) then x else nth j l d.
Proof. rewrite !nth_lookup, list_lookup_insert. by case_decide. Qed.

(** ** Counting with [filter] when one element flips *)
Lemma filter_length_flip {A} (f g : A -> bool) (l : list A) (x : A) :
  List.NoDup l -> In x l -> f x = true -> g x = false ->
  (forall y, In y l -> y <> x -> f y = g y) ->
  length (List.filter f l) = S (length (List.filter g l)).
Proof.
  induction l as [|y l IH]; simpl; [done|]. intros Hnd Hx Hf Hg Hfg.
  inversion Hnd as [|? ? Hy Hnd']; subst.
  destruct Hx as [<- | Hx].
  - rewrite Hf, Hg. simpl. do 2 f_equal. apply filter_ext_in.
    intros z Hz. apply Hfg; [by right|]. intros ->. contradiction.
  - assert (y <> x) by (intros ->; contradiction).
    rewrite (Hfg y) by auto. destruct (g y); simpl; [f_equal|]; apply IH; auto.
Qed.

#[export] Instance In_dec {A} `{EqDecision A} (x : A) (l : list A) : Decision (In x l) :=
  in_dec (fun a a' : A => decide (a = a')) x l.

(** [by_compute] proves a decidable proposition about concrete data by
    evaluating its decision procedure. *)
Ltac by_compute := apply (bool_decide_unpack _); vm_compute; reflexivity.

(** [for (int i = lo; i < hi; i++)]. *)
Definition zrange (lo hi : Z) : list Z := map (fun i => lo + i) (upto (hi - lo)).

Lemma elem_zrange lo hi x : In x (zrange lo hi) <-> lo <= x < hi.
Proof.
  unfold zrange. rewrite in_map_iff. setoid_rewrite elem_upto. split.
  - intros (i & <- & Hi). lia.
  - intros Hx. exists (x - lo). split; lia.
Qed.

Lemma length_upto n : length (upto n) = Z.to_nat n.
Proof. unfold upto. by rewrite length_map, length_seq. Qed.

Lemma NoDup_zrange lo hi : List.NoDup (zrange lo hi).
Proof.
  unfold zrange. apply Finite.Injective_map_NoDup_in; [intros ?????; lia|apply NoDup_upto].
Qed.

Lemma length_flat_map_const {A B} (f : A -> list B) (l : list A) n :
  (forall x, In x l -> length (f x) = n) -> length (flat_map f l) = (length l * n)%nat.
Proof.
  induction l as [|x l IH]; intros Hf; [done|]. cbn [flat_map length].
  rewrite length_app, (Hf x (or_introl eq_refl)), IH; [lia|].
  intros y Hy. apply Hf. by right.
Qed.

(** An invariant of the step function is an invariant of the loop. *)
Lemma fold_left_invariant {A B} (P : B -> Prop) (f : B -> A -> B) (l : list A) (x : B) :
  (forall y a, In a l -> P y -> P (f y a)) -> P x -> P (fold_left f l x).
Proof.
  revert x. induction l as [|a l IH]; intros x Hf Hx; [done|]. cbn [fold_left].
  apply IH; [intros y a' Ha'; apply Hf; by right|apply Hf; [by left|done]].
Qed.

(** Filtering keeps a list sorted (the order of a [std::set] built by
    inserting in increasing order). *)
Lemma StronglySorted_filter {A} (R : A -> A -> Prop) (f : A -> bool) (l : list A) :
  StronglySorted R l -> StronglySorted R (List.filter f l).
Proof.
  induction 1 as [|x l _ IH Hx]; cbn [List.filter]; [constructor|].
  destruct (f x); [|done]. constructor; [done|].
  apply Forall_forall. intros y [Hy _]%filter_In. exact (proj1 (Forall_forall _ _) Hx y Hy).
Qed.

(** The suffix of a list from a valid index starts with the element there. *)
Lemma drop_nth {A} (l : list A) (k : nat) (d : A) :
  (k < List.length l)%nat -> drop k l = nth k l d :: drop (S k) l.
Proof.
  revert k. induction l as [|x l IH]; intros k Hk; cbn in Hk; [lia|].
  destruct k as [|k]; [done|]. cbn. apply IH. lia.
Qed.
