(* ===== verification/Board.v ===== *)
(** * Board: the grid of [SudokuBoard] and the rules of the game

    Module [Board] models src/Sudoku/src/SudokuBoard.cpp.  The member
    [std::vector<std::vector<int>> board] is a [list (list Z)]; reading
    [board[row][col]] is [cell] and the raw write
    [getBoard()[row][col] = v] used by the solver, the counter, the
    generator and the propagation solver is [set_cell].  Each method is a
    definition of the same name; a method that mutates the board returns
    the new board (with its [bool] result when it has one).
    Out of range, [cell] reads 0 and [set_cell] leaves the board as it
    is; in C++ such an access is undefined behaviour.  No path of the
    program reaches it with a 9x9 board: every index the code computes
    lies in 0..8, and the entry points check the ranges first.

    The second half states the rules as the abstract specification of the
    grid ([wf], [valid], [complete], [extends], [solution_of]) and proves
    that [isValidMove] decides exactly the rule it stands for, that every
    write the code guards with it keeps a valid grid valid, and the
    behaviour of the other methods on every branch. *)

From S2P Require Import Prelude.
From Stdlib Require Import Permutation.

Module Board.

Definition BOARD_SIZE : Z := 9.
Definition BOX_SIZE : Z := 3.

(** The grid: [std::vector<std::vector<int>>], row-major. *)
Abbreviation board := (list (list Z)).

(** [SudokuBoard()] : [board(BOARD_SIZE, std::vector<int>(BOARD_SIZE, 0))]. *)
Definition new_board : board :=
  repeat (repeat 0 (Z.to_nat BOARD_SIZE)) (Z.to_nat BOARD_SIZE).

(** [board[row][col]] for in-range indices. *)
Definition cell (b : board) (r c : Z) : Z :=
  nth (Z.to_nat c) (nth (Z.to_nat r) b []) 0.

(** [board[row][col] = v], the write every component performs through
    [getBoard()]. *)
Definition set_cell (b : board) (r c v : Z) : board :=
  <[Z.to_nat r := <[Z.to_nat c := v]> (nth (Z.to_nat r) b [])]> b.

(** The cells in the order of the nested [for (i ...) for (j ...)] loops. *)
Definition positions : list (Z * Z) :=
  list_prod (upto BOARD_SIZE) (upto BOARD_SIZE).

Notation "b @[ r , c ]" := (cell b r c)
  (format "b @[ r ,  c ]") : sudoku_scope.

(** [initializeBoard]: copies the argument when it has [BOARD_SIZE] rows
    and its first row has [BOARD_SIZE] columns. *)
Definition initializeBoard (initialBoard b : board) : board :=
  if (Z.of_nat (length initialBoard) =? BOARD_SIZE) &&
     (Z.of_nat (length (nth 0 initialBoard [])) =? BOARD_SIZE)
  then initialBoard else b.

Definition isValidInRow (b : board) (row value : Z) : bool :=
  forallb (fun col => negb (b@[row, col] =? value)) (upto BOARD_SIZE).

Definition isValidInColumn (b : board) (col value : Z) : bool :=
  forallb (fun row => negb (b@[row, col] =? value)) (upto BOARD_SIZE).

Definition isValidInBox (b : board) (startRow startCol value : Z) : bool :=
  forallb (fun i =>
    forallb (fun j => negb (b@[startRow + i, startCol + j] =? value))
      (upto BOX_SIZE)) (upto BOX_SIZE).

Definition isValidMove (b : board) (row col value : Z) : bool :=
  if (row <? 0) || (row >=? BOARD_SIZE) || (col <? 0) || (col >=? BOARD_SIZE)
  then false
  else if (value <? 1) || (value >? 9) then false
  else if negb (b@[row, col] =? 0) then false
  else isValidInRow b row value && isValidInColumn b col value &&
       isValidInBox b (row / BOX_SIZE * BOX_SIZE) (col / BOX_SIZE * BOX_SIZE) value.

Definition setValue (b : board) (row col value : Z) : bool * board :=
  if isValidMove b row col value then (true, set_cell b row col value)
  else (false, b).

Definition getValue (b : board) (row col : Z) : Z :=
  if (row >=? 0) && (row <? BOARD_SIZE) && (col >=? 0) && (col <? BOARD_SIZE)
  then b@[row, col] else -1.

Definition isEmpty (b : board) (row col : Z) : bool := getValue b row col =? 0.

Definition isFull (b : board) : bool :=
  forallb (fun i => forallb (fun j => negb (b@[i, j] =? 0)) (upto BOARD_SIZE))
    (upto BOARD_SIZE).

Definition clear (b : board) : board :=
  fold_left (fun b p => set_cell b p.1 p.2 0) positions b.

(** The puzzle [SudokuGame::initializeDefaultPuzzle] loads
    (src/Sudoku/src/SudokuGame.cpp). *)
Definition defaultPuzzle : board :=
  [[5; 3; 0; 0; 7; 0; 0; 0; 0];
   [6; 0; 0; 1; 9; 5; 0; 0; 0];
   [0; 9; 8; 0; 0; 0; 0; 6; 0];
   [8; 0; 0; 0; 6; 0; 0; 0; 3];
   [4; 0; 0; 8; 0; 3; 0; 0; 1];
   [7; 0; 0; 0; 2; 0; 0; 0; 6];
   [0; 6; 0; 0; 0; 0; 2; 8; 0];
   [0; 0; 0; 4; 1; 9; 0; 0; 5];
   [0; 0; 0; 0; 8; 0; 0; 7; 9]].

(** ** The rules: the abstract specification of a grid *)

Definition wf (b : board) : Prop :=
  length b = 9%nat /\ Forall (fun row => length row = 9%nat) b.

Definition in_range (r c : Z) : Prop := 0 <= r < 9 /\ 0 <= c < 9.

(** Two cells share a unit: the same row, the same column or the same box. *)
Definition same_unit (r c r' c' : Z) : Prop :=
  r = r' \/ c = c' \/ (r / 3 = r' / 3 /\ c / 3 = c' / 3).

(** The grid invariant: digits in 0..9 and no non-zero digit repeated in a
    unit. *)
Definition valid (b : board) : Prop :=
  wf b /\
  (forall r c, in_range r c -> 0 <= b@[r, c] <= 9) /\
  (forall r c r' c', in_range r c -> in_range r' c' -> (r, c) <> (r', c') ->
     same_unit r c r' c' -> b@[r, c] <> 0 -> b@[r, c] <> b@[r', c']).

Definition complete (b : board) : Prop :=
  forall r c, in_range r c -> b@[r, c] <> 0.

(** [s] keeps every filled cell of [b]. *)
Definition extends (s b : board) : Prop :=
  wf s /\ forall r c, in_range r c -> b@[r, c] <> 0 -> s@[r, c] = b@[r, c].

Definition solution_of (s b : board) : Prop :=
  valid s /\ complete s /\ extends s b.

(** The number of empty cells: the measure of every search. *)
Definition count_empty (b : board) : nat :=
  length (List.filter (fun p => b@[p.1, p.2] =? 0) positions).

(** ** Shape and cell-update lemmas *)
Lemma elem_positions r c : In (r, c) positions <-> in_range r c.
Proof.
  unfold positions, in_range. rewrite in_prod_iff, !elem_upto. done.
Qed.

Lemma NoDup_positions : List.NoDup positions.
Proof. apply NoDup_ListNoDup, (bool_decide_unpack _). by vm_compute. Qed.

Lemma wf_row b r :
  wf b -> 0 <= r < 9 -> length (nth (Z.to_nat r) b []) = 9%nat.
Proof.
  intros [Hl Hrows] Hr. rewrite Forall_forall in Hrows.
  apply Hrows, nth_In. lia.
Qed.

Lemma wf_set_cell b r c v : wf b -> wf (set_cell b r c v).
Proof.
  intros [Hl Hrows]. unfold set_cell.
  destruct (decide (Z.to_nat r < length b)%nat).
  - split; [by rewrite length_insert|].
    apply Forall_insert; [done|]. rewrite length_insert.
    rewrite Forall_forall in Hrows. apply Hrows, nth_In; lia.
  - rewrite list_insert_ge by lia. by split.
Qed.

#[export] Hint Resolve wf_set_cell : sudoku.

Lemma cell_set_cell b r c r' c' v :
  wf b -> in_range r c -> in_range r' c' ->
  (set_cell b r c v)@[r', c'] = if decide ((r, c) = (r', c')) then v else b@[r', c'].
Proof.
  intros Hwf [Hr Hc] [Hr' Hc']. pose proof (wf_row b r Hwf Hr) as Hrow.
  destruct Hwf as [Hl _]. unfold cell, set_cell.
  rewrite nth_insert. case_decide as Hrr.
  - rewrite nth_insert, Hrow. destruct Hrr as [Hrr _].
    assert (r = r') as <- by lia.
    destruct (decide (c = c')) as [<-|Hcc].
    + rewrite (decide_True (P := (r, c) = (r, c))) by done.
      by rewrite decide_True by lia.
    + rewrite (decide_False (P := (r, c) = (r, c'))) by (intros ?; simplify_eq).
      rewrite decide_False by lia. done.
  - case_decide as Hpair; [simplify_eq; lia | done].
Qed.

Lemma cell_set_cell_eq b r c v :
  wf b -> in_range r c -> (set_cell b r c v)@[r, c] = v.
Proof. intros. rewrite cell_set_cell by done. by case_decide. Qed.

Lemma cell_set_cell_ne b r c r' c' v :
  wf b -> in_range r c -> in_range r' c' -> (r, c) <> (r', c') ->
  (set_cell b r c v)@[r', c'] = b@[r', c'].
Proof. intros. rewrite cell_set_cell by done. by case_decide. Qed.

(** Two grids of the right shape with the same cells are equal. *)
Lemma board_ext b1 b2 :
  wf b1 -> wf b2 -> (forall r c, in_range r c -> b1@[r, c] = b2@[r, c]) -> b1 = b2.
Proof.
  intros Hw1 Hw2 Hcell. pose proof Hw1 as [Hl1 _]. pose proof Hw2 as [Hl2 _].
  apply (nth_ext _ _ [] []); [congruence|]. intros i Hi.
  pose proof (wf_row b1 (Z.of_nat i) Hw1) as H1.
  pose proof (wf_row b2 (Z.of_nat i) Hw2) as H2.
  rewrite Nat2Z.id in H1, H2.
  apply (nth_ext _ _ 0 0); [rewrite H1, H2; lia|]. intros j Hj.
  specialize (Hcell (Z.of_nat i) (Z.of_nat j)). unfold cell in Hcell.
  rewrite !Nat2Z.id in Hcell. apply Hcell. split; [|rewrite H1 in Hj]; lia.
Qed.

Lemma set_cell_id b r c :
  wf b -> in_range r c -> set_cell b r c (b@[r, c]) = b.
Proof.
  intros Hwf Hrc. apply board_ext; [by apply wf_set_cell|done|].
  intros r' c' Hrc'. rewrite cell_set_cell by done. case_decide; by simplify_eq.
Qed.

Lemma set_cell_set_cell b r c v w :
  wf b -> in_range r c -> set_cell (set_cell b r c v) r c w = set_cell b r c w.
Proof.
  intros Hwf Hrc. apply board_ext; auto using wf_set_cell.
  intros r' c' Hrc'. rewrite !cell_set_cell by auto using wf_set_cell.
  by case_decide.
Qed.

(** ** The guards of the methods *)
Lemma oob_false_iff row col :
  ((row <? 0) || (row >=? BOARD_SIZE) || (col <? 0) || (col >=? BOARD_SIZE))%bool = false
  <-> in_range row col.
Proof.
  unfold in_range, BOARD_SIZE.
  destruct (Z.ltb_spec row 0), (Z.geb_spec row 9), (Z.ltb_spec col 0),
    (Z.geb_spec col 9); simpl; split; (done || lia).
Qed.

Lemma inb_true_iff row col :
  ((row >=? 0) && (row <? BOARD_SIZE) && (col >=? 0) && (col <? BOARD_SIZE))%bool = true
  <-> in_range row col.
Proof.
  unfold in_range, BOARD_SIZE.
  destruct (Z.ltb_spec row 9), (Z.geb_spec row 0), (Z.ltb_spec col 9),
    (Z.geb_spec col 0); simpl; split; (done || lia).
Qed.

Lemma digit_false_iff v : ((v <? 1) || (v >? 9))%bool = false <-> 1 <= v <= 9.
Proof. destruct (Z.ltb_spec v 1), (Z.gtb_spec v 9); simpl; split; (done || lia). Qed.

Lemma same_unit_sym r c r' c' : same_unit r c r' c' -> same_unit r' c' r c.
Proof. unfold same_unit. lia. Qed.

Lemma isValidInRow_spec b row v :
  isValidInRow b row v = true <-> forall c, 0 <= c < 9 -> b@[row, c] <> v.
Proof.
  unfold isValidInRow. rewrite forallb_upto.
  setoid_rewrite negb_true_iff. setoid_rewrite Z.eqb_neq. done.
Qed.

Lemma isValidInColumn_spec b col v :
  isValidInColumn b col v = true <-> forall r, 0 <= r < 9 -> b@[r, col] <> v.
Proof.
  unfold isValidInColumn. rewrite forallb_upto.
  setoid_rewrite negb_true_iff. setoid_rewrite Z.eqb_neq. done.
Qed.

(** The box loop starts at [(row / 3) * 3]: it visits exactly the cells
    whose coordinates have the same quotient by 3. *)
Lemma isValidInBox_spec b row col v :
  in_range row col ->
  isValidInBox b (row / BOX_SIZE * BOX_SIZE) (col / BOX_SIZE * BOX_SIZE) v = true <->
  forall r' c', in_range r' c' -> r' / 3 = row / 3 -> c' / 3 = col / 3 -> b@[r', c'] <> v.
Proof.
  unfold isValidInBox, BOX_SIZE, in_range. intros Hrc. rewrite forallb_upto.
  setoid_rewrite forallb_upto. setoid_rewrite negb_true_iff.
  setoid_rewrite Z.eqb_neq. split.
  - intros H r' c' Hrc' Hr Hc.
    specialize (H (r' - row / 3 * 3) ltac:(zdiv) (c' - col / 3 * 3) ltac:(zdiv)).
    by replace r' with (row / 3 * 3 + (r' - row / 3 * 3)) by lia;
       replace c' with (col / 3 * 3 + (c' - col / 3 * 3)) by lia.
  - intros H i Hi j Hj. apply H; zdiv.
Qed.

(** [isValidMove] decides the rule of the game: an in-range empty cell, a
    digit, and no cell of the same row, column or box holding it. *)
Lemma isValidMove_iff b row col v :
  isValidMove b row col v = true <->
  in_range row col /\ 1 <= v <= 9 /\ b@[row, col] = 0 /\
  forall r' c', in_range r' c' -> same_unit row col r' c' -> b@[r', c'] <> v.
Proof.
  unfold isValidMove.
  destruct (_ || _ || _ || _)%bool eqn:Hoob.
  { split; [done|]. intros [Hin _]. apply oob_false_iff in Hin. congruence. }
  apply oob_false_iff in Hoob.
  destruct (_ || _)%bool eqn:Hdig.
  { split; [done|]. intros (_ & Hv & _). apply digit_false_iff in Hv. congruence. }
  apply digit_false_iff in Hdig.
  destruct (Z.eqb_spec (b@[row, col]) 0) as [Hz|Hz]; simpl;
    [|split; [done|intros (_ & _ & ? & _); contradiction]].
  rewrite !andb_true_iff, isValidInRow_spec, isValidInColumn_spec,
    isValidInBox_spec by done.
  unfold same_unit, in_range in *. split.
  - intros [[Hrow Hcol] Hbox]. do 3 (split; [done|]).
    intros r' c' Hrc' [<- | [<- | [Hr Hc]]]; [apply Hrow|apply Hcol|apply Hbox]; lia.
  - intros (_ & _ & _ & H). repeat split; intros; apply H; lia.
Qed.

Lemma isValidMove_empty b row col v :
  isValidMove b row col v = true -> in_range row col /\ 1 <= v <= 9 /\ b@[row, col] = 0.
Proof. rewrite isValidMove_iff. tauto. Qed.

(** The write guarded by [isValidMove] keeps a valid grid valid. *)
Lemma valid_set_cell b r c v :
  valid b -> isValidMove b r c v = true -> valid (set_cell b r c v).
Proof.
  intros (Hwf & Hdig & Huniq) Hmove.
  apply isValidMove_iff in Hmove as (Hrc & Hv & Hempty & Hpeers).
  split; [by apply wf_set_cell|split].
  - intros r1 c1 H1. rewrite cell_set_cell by done. case_decide; [lia|auto].
  - intros r1 c1 r2 c2 H1 H2 Hne Hunit. rewrite !cell_set_cell by done.
    case_decide as E1; case_decide as E2; simplify_eq.
    + by intros _ ?; apply (Hpeers r2 c2).
    + intros Hnz ?. apply (Hpeers r1 c1); auto using same_unit_sym.
    + by apply Huniq.
Qed.

Lemma isEmpty_iff b row col : isEmpty b row col = true <-> in_range row col /\ b@[row, col] = 0.
Proof.
  unfold isEmpty, getValue. destruct (_ && _ && _ && _)%bool eqn:E.
  - apply inb_true_iff in E. rewrite Z.eqb_eq. tauto.
  - split; [done|]. intros [Hin _]. apply inb_true_iff in Hin. congruence.
Qed.

Lemma isFull_iff b : isFull b = true <-> complete b.
Proof.
  unfold isFull, complete, in_range. rewrite forallb_upto.
  setoid_rewrite forallb_upto. setoid_rewrite negb_true_iff.
  setoid_rewrite Z.eqb_neq. split; intros H; [intros r c [? ?]|intros]; auto.
Qed.

(** ** The number of empty cells *)
Lemma count_empty_le b : (count_empty b <= 81)%nat.
Proof. unfold count_empty. etransitivity; [apply filter_length_le|done]. Qed.

(** Filling an empty cell with a digit removes one empty cell. *)
Lemma count_empty_set_cell b r c v :
  wf b -> in_range r c -> b@[r, c] = 0 -> v <> 0 ->
  count_empty b = S (count_empty (set_cell b r c v)).
Proof.
  intros Hwf Hrc Hz Hv. unfold count_empty.
  apply (filter_length_flip _ _ _ (r, c)).
  - apply NoDup_positions.
  - by apply elem_positions.
  - simpl. by apply Z.eqb_eq.
  - simpl. rewrite cell_set_cell_eq by done. by apply Z.eqb_neq.
  - intros [r' c'] Hp Hne. apply elem_positions in Hp. simpl.
    rewrite cell_set_cell_ne by (done || congruence). done.
Qed.

(** ** Deciding the rules *)

(** [s] agrees with every filled cell of [b], as a check over the cells. *)
Definition extendsb (s b : board) : bool :=
  forallb (fun p => (b@[p.1, p.2] =? 0) || (s@[p.1, p.2] =? b@[p.1, p.2])) positions.

Lemma extendsb_iff s b : wf s -> extendsb s b = true <-> extends s b.
Proof.
  intros Hws. unfold extendsb, extends. rewrite forallb_forall. split.
  - intros H. split; [done|]. intros r c Hrc Hnz.
    specialize (H (r, c) (proj2 (elem_positions r c) Hrc)). simpl in H.
    apply orb_true_iff in H as [H|H]; [by apply Z.eqb_eq in H|by apply Z.eqb_eq].
  - intros [_ H] [r c] Hp. apply elem_positions in Hp. simpl.
    destruct (Z.eqb_spec (b@[r, c]) 0); [done|]. apply orb_true_iff. right.
    apply Z.eqb_eq. auto.
Qed.

#[export] Instance wf_dec (b : board) : Decision (wf b).
Proof. unfold wf. apply _. Defined.

#[export] Instance complete_dec (b : board) : Decision (complete b).
Proof.
  destruct (isFull b) eqn:E; [left|right]; rewrite <- isFull_iff; congruence.
Defined.

#[export] Instance extends_dec (s b : board) : Decision (extends s b).
Proof.
  destruct (decide (wf s)) as [Hws|Hws]; [|right; by intros []].
  destruct (extendsb s b) eqn:E; [left|right]; rewrite <- extendsb_iff by done;
    congruence.
Defined.

(** What [isValidBoard] checks at one cell: empty, or a digit that no other
    cell of its row, column or box repeats. *)
Definition cell_ok (b : board) (i j : Z) : Prop :=
  b@[i, j] = 0 \/
  (1 <= b@[i, j] <= 9 /\
   forall r' c', in_range r' c' -> (i, j) <> (r', c') -> same_unit i j r' c' ->
     b@[i, j] <> b@[r', c']).

Lemma valid_iff_cells_ok b :
  wf b -> valid b <-> forall i j, in_range i j -> cell_ok b i j.
Proof.
  intros Hwf. unfold valid, cell_ok. split.
  - intros (_ & Hdig & Huniq) i j Hij.
    destruct (decide (b@[i, j] = 0)) as [|Hnz]; [by left|right].
    specialize (Hdig i j Hij). split; [lia|]. intros; apply Huniq; auto.
  - intros H. split; [done|split].
    + intros r c Hrc. destruct (H r c Hrc) as [->|[? _]]; lia.
    + intros r c r' c' Hrc Hrc' Hne Hunit Hnz.
      destruct (H r c Hrc) as [?|[_ Hu]]; [contradiction|]. by apply Hu.
Qed.

Definition same_unitb (r c r' c' : Z) : bool :=
  (r =? r') || (c =? c') || ((r / 3 =? r' / 3) && (c / 3 =? c' / 3)).

Lemma same_unitb_iff r c r' c' : same_unitb r c r' c' = true <-> same_unit r c r' c'.
Proof.
  unfold same_unitb, same_unit. rewrite !orb_true_iff, andb_true_iff, !Z.eqb_eq. tauto.
Qed.

(** [cell_ok] as a check over the cells. *)
Definition cell_okb (b : board) (i j : Z) : bool :=
  (b@[i, j] =? 0) ||
  ((1 <=? b@[i, j]) && (b@[i, j] <=? 9) &&
   forallb (fun p => ((p.1 =? i) && (p.2 =? j)) || negb (same_unitb i j p.1 p.2) ||
                     negb (b@[i, j] =? b@[p.1, p.2])) positions).

Lemma cell_okb_iff b i j : cell_okb b i j = true <-> cell_ok b i j.
Proof.
  unfold cell_okb, cell_ok. rewrite orb_true_iff, !andb_true_iff, Z.eqb_eq, !Z.leb_le,
    forallb_forall.
  apply or_iff_compat_l. split.
  - intros [[H1 H9] H]. split; [lia|]. intros r' c' Hrc' Hne Hunit Heq.
    specialize (H (r', c') (proj2 (elem_positions r' c') Hrc')). cbn [fst snd] in H.
    rewrite !orb_true_iff, andb_true_iff, !Z.eqb_eq, negb_true_iff in H.
    apply same_unitb_iff in Hunit.
    destruct H as [[[-> ->]|H]|H]; [done|congruence|].
    rewrite negb_true_iff, Z.eqb_neq in H. contradiction.
  - intros [Hv H]. split; [lia|]. intros [r' c'] Hp. apply elem_positions in Hp.
    cbn [fst snd]. rewrite !orb_true_iff, andb_true_iff, !Z.eqb_eq, !negb_true_iff,
      Z.eqb_neq.
    destruct (decide ((i, j) = (r', c'))) as [E|E]; [left; left; by simplify_eq|].
    destruct (same_unitb i j r' c') eqn:U; [right|left; by right].
    apply same_unitb_iff in U. by apply H.
Qed.

#[export] Instance valid_dec (b : board) : Decision (valid b).
Proof.
  destruct (decide (wf b)) as [Hwf|Hwf]; [|right; by intros []].
  destruct (forallb (fun p => cell_okb b p.1 p.2) positions) eqn:E; [left|right];
    rewrite valid_iff_cells_ok by done.
  - rewrite forallb_forall in E. intros i j Hij. apply cell_okb_iff.
    apply (E (i, j)), elem_positions, Hij.
  - intros H. apply not_true_iff_false in E. apply E, forallb_forall.
    intros [i j] Hp. apply cell_okb_iff, H, elem_positions, Hp.
Defined.

#[export] Instance solution_of_dec (s b : board) : Decision (solution_of s b).
Proof. unfold solution_of. apply _. Defined.

(** Emptying a cell keeps a valid grid valid. *)
Lemma valid_set_cell_zero b r c :
  valid b -> in_range r c -> valid (set_cell b r c 0).
Proof.
  intros (Hwf & Hdig & Huniq) Hrc. split; [auto with sudoku|split].
  - intros r1 c1 H1. rewrite cell_set_cell by done. case_decide; [lia|auto].
  - intros r1 c1 r2 c2 H1 H2 Hne Hunit. rewrite !cell_set_cell by done.
    case_decide; [done|]. case_decide; [lia|]. by apply Huniq.
Qed.

(** The nine cells of a unit of a complete valid grid hold each digit
    once. *)
Lemma unit_permutation b (cs : list (Z * Z)) :
  valid b -> complete b -> List.NoDup cs -> length cs = 9%nat ->
  (forall p, In p cs -> in_range p.1 p.2) ->
  (forall p q, In p cs -> In q cs -> same_unit p.1 p.2 q.1 q.2) ->
  Permutation (map (fun p => b@[p.1, p.2]) cs) digits.
Proof.
  intros (Hwf & Hdig & Huniq) Hc Hnd Hlen Hin Hunit.
  assert (Hrange : forall x, In x (map (fun p => b@[p.1, p.2]) cs) -> 1 <= x <= 9).
  { intros x (p & <- & Hp)%in_map_iff. specialize (Hin p Hp).
    specialize (Hdig _ _ Hin). specialize (Hc _ _ Hin). lia. }
  assert (Hnd' : List.NoDup (map (fun p => b@[p.1, p.2]) cs)).
  { apply Finite.Injective_map_NoDup_in; [|done]. intros [r c] [r' c'] Hp Hq Heq.
    destruct (decide ((r, c) = (r', c'))) as [|Hne]; [done|exfalso].
    apply (Huniq r c r' c'); auto; [apply (Hin _ Hp)|apply (Hin _ Hq)|
      apply (Hunit _ _ Hp Hq)|apply (Hc _ _ (Hin _ Hp))]. }
  apply NoDup_Permutation; [done|apply NoDup_digits|]. intros x. split.
  - intros Hx. apply elem_digits, Hrange, Hx.
  - intros Hx%elem_digits. apply digits_pigeonhole; auto. by rewrite length_map.
Qed.

(** ** The units *)

(** [SudokuAdvancedChecks::getRowCells], [getColumnCells] and
    [getBoxCells]: the cells of a unit in loop order. *)
Definition getRowCells (row : Z) : list (Z * Z) := map (fun col => (row, col)) (upto 9).

Definition getColumnCells (col : Z) : list (Z * Z) := map (fun row => (row, col)) (upto 9).

Definition getBoxCells (boxRow boxCol : Z) : list (Z * Z) :=
  flat_map (fun r => map (fun c => (r, c)) (zrange (boxCol * 3) ((boxCol + 1) * 3)))
    (zrange (boxRow * 3) ((boxRow + 1) * 3)).

Lemma elem_getRowCells row p : In p (getRowCells row) <-> p.1 = row /\ 0 <= p.2 < 9.
Proof.
  destruct p as [r c]. unfold getRowCells. rewrite in_map_iff.
  setoid_rewrite elem_upto. cbn. split; [intros (? & [= <- <-] & ?); lia|].
  intros [-> ?]. eauto.
Qed.

Lemma elem_getColumnCells col p : In p (getColumnCells col) <-> 0 <= p.1 < 9 /\ p.2 = col.
Proof.
  destruct p as [r c]. unfold getColumnCells. rewrite in_map_iff.
  setoid_rewrite elem_upto. cbn. split; [intros (? & [= <- <-] & ?); lia|].
  intros [? ->]. eauto.
Qed.

Lemma elem_getBoxCells br bc p :
  0 <= br < 3 -> 0 <= bc < 3 ->
  In p (getBoxCells br bc) <-> in_range p.1 p.2 /\ p.1 / 3 = br /\ p.2 / 3 = bc.
Proof.
  intros Hbr Hbc. destruct p as [r c]. unfold getBoxCells, in_range.
  rewrite in_flat_map. setoid_rewrite elem_zrange. setoid_rewrite in_map_iff.
  setoid_rewrite elem_zrange. cbn.
  split.
  - intros (r' & Hr & c' & [= <- <-] & Hc). split; [lia|split]; zdiv.
  - intros [[? ?] [? ?]]. exists r. split; [zdiv|]. exists c. split; [done|zdiv].
Qed.

Lemma NoDup_getRowCells row : List.NoDup (getRowCells row).
Proof.
  apply Finite.Injective_map_NoDup_in; [intros ???? [=]; done|apply NoDup_upto].
Qed.

Lemma NoDup_getColumnCells col : List.NoDup (getColumnCells col).
Proof.
  apply Finite.Injective_map_NoDup_in; [intros ???? [=]; done|apply NoDup_upto].
Qed.

Lemma NoDup_getBoxCells br bc : List.NoDup (getBoxCells br bc).
Proof.
  apply NoDup_flat_map_disjoint; [apply NoDup_zrange| |].
  - intros r _. apply Finite.Injective_map_NoDup_in; [intros ???? [=]; done|apply NoDup_zrange].
  - intros r r' [x y] _ _ (? & [= -> ->] & _)%in_map_iff (? & [= -> ->] & _)%in_map_iff.
    done.
Qed.

Lemma length_getRowCells row : length (getRowCells row) = 9%nat.
Proof. reflexivity. Qed.

Lemma length_getColumnCells col : length (getColumnCells col) = 9%nat.
Proof. reflexivity. Qed.

Lemma length_getBoxCells br bc : length (getBoxCells br bc) = 9%nat.
Proof.
  unfold getBoxCells. rewrite (length_flat_map_const _ _ 3).
  - unfold zrange. rewrite length_map, length_upto. lia.
  - intros r _. unfold zrange. rewrite !length_map, length_upto. lia.
Qed.

(** A unit: nine distinct cells of the grid, any two sharing a row, a
    column or a box. *)
Definition is_unit (cs : list (Z * Z)) : Prop :=
  List.NoDup cs /\ length cs = 9%nat /\ (forall p, In p cs -> in_range p.1 p.2) /\
  (forall p q, In p cs -> In q cs -> same_unit p.1 p.2 q.1 q.2).

Lemma unit_getRowCells row : 0 <= row < 9 -> is_unit (getRowCells row).
Proof.
  intros Hrow. split; [apply NoDup_getRowCells|split; [done|split]].
  - intros p Hp%elem_getRowCells. unfold in_range. lia.
  - intros p q Hp%elem_getRowCells Hq%elem_getRowCells. unfold same_unit. lia.
Qed.

Lemma unit_getColumnCells col : 0 <= col < 9 -> is_unit (getColumnCells col).
Proof.
  intros Hcol. split; [apply NoDup_getColumnCells|split; [done|split]].
  - intros p Hp%elem_getColumnCells. unfold in_range. lia.
  - intros p q Hp%elem_getColumnCells Hq%elem_getColumnCells. unfold same_unit. lia.
Qed.

Lemma unit_getBoxCells br bc : 0 <= br < 3 -> 0 <= bc < 3 -> is_unit (getBoxCells br bc).
Proof.
  intros Hbr Hbc. split; [apply NoDup_getBoxCells|split; [apply length_getBoxCells|split]].
  - intros p Hp. apply (elem_getBoxCells br bc p Hbr Hbc) in Hp. tauto.
  - intros p q Hp Hq. apply (elem_getBoxCells br bc p Hbr Hbc) in Hp.
    apply (elem_getBoxCells br bc q Hbr Hbc) in Hq. unfold same_unit. lia.
Qed.

Lemma is_unit_permutation b cs :
  valid b -> complete b -> is_unit cs ->
  Permutation (map (fun p => b@[p.1, p.2]) cs) digits.
Proof. intros Hb Hc (? & ? & ? & ?). by apply unit_permutation. Qed.

(** Every row, column and box of a complete valid grid holds each digit
    once. *)
Lemma units_permutation b :
  valid b -> complete b ->
  (forall row, 0 <= row < 9 -> Permutation (map (fun p => b@[p.1, p.2]) (getRowCells row)) digits) /\
  (forall col, 0 <= col < 9 -> Permutation (map (fun p => b@[p.1, p.2]) (getColumnCells col)) digits) /\
  (forall br bc, 0 <= br < 3 -> 0 <= bc < 3 ->
     Permutation (map (fun p => b@[p.1, p.2]) (getBoxCells br bc)) digits).
Proof.
  intros Hb Hc. split; [|split]; intros; apply is_unit_permutation;
    auto using unit_getRowCells, unit_getColumnCells, unit_getBoxCells.
Qed.

Lemma count_empty_complete b : complete b -> count_empty b = 0%nat.
Proof.
  intros Hc. unfold count_empty. apply length_zero_iff_nil.
  destruct (List.filter _ positions) as [|[r c] l] eqn:E; [done|exfalso].
  assert (Hin : In (r, c) (List.filter (fun p => b@[p.1, p.2] =? 0) positions))
    by (rewrite E; by left).
  apply filter_In in Hin as [Hp Hz%Z.eqb_eq]. apply elem_positions in Hp.
  by apply (Hc r c).
Qed.

(** Emptying a cell of [b] keeps every extension of [b] an extension. *)
Lemma extends_set_cell_zero s b r c :
  wf b -> in_range r c -> extends s b -> extends s (set_cell b r c 0).
Proof.
  intros Hwf Hrc [Hws Hs]. split; [done|]. intros r' c' Hrc'.
  rewrite cell_set_cell by done. case_decide; [done|]. auto.
Qed.

(** ** The methods that change the board *)

(** C24: [setValue] writes exactly when the move obeys the rules, writes only
    the requested cell, and never applies partially. *)
Theorem setValue_spec b row col v ok b' :
  wf b -> setValue b row col v = (ok, b') ->
  (ok = true <-> in_range row col /\ 1 <= v <= 9 /\ b@[row, col] = 0 /\
     forall r' c', in_range r' c' -> same_unit row col r' c' -> b@[r', c'] <> v) /\
  (ok = true -> b'@[row, col] = v /\
     forall r' c', in_range r' c' -> (r', c') <> (row, col) -> b'@[r', c'] = b@[r', c']) /\
  (ok = false -> b' = b).
Proof.
  intros Hwf. unfold setValue. rewrite <- isValidMove_iff.
  destruct (isValidMove b row col v) eqn:Hm; intros [= <- <-];
    [|split; [done|split; done]].
  apply isValidMove_empty in Hm as (Hrc & _).
  split; [done|split; [|done]]. intros _.
  split; [by apply cell_set_cell_eq|]. intros r' c' Hrc' Hne.
  apply cell_set_cell_ne; auto.
Qed.

(** C23: [setValue] preserves the grid invariant. *)
Theorem setValue_preserves_valid b row col v :
  valid b -> valid (setValue b row col v).2.
Proof.
  intros Hb. unfold setValue.
  destruct (isValidMove b row col v) eqn:Hm; [by apply valid_set_cell|done].
Qed.

Lemma new_board_cell r c : in_range r c -> new_board@[r, c] = 0.
Proof.
  intros Hrc. assert (H : forallb (fun p => new_board@[p.1, p.2] =? 0) positions = true)
    by (vm_compute; reflexivity).
  rewrite forallb_forall in H. apply Z.eqb_eq, (H (r, c)), elem_positions, Hrc.
Qed.

Lemma wf_new_board : wf new_board.
Proof. by apply (bool_decide_unpack _); vm_compute. Qed.

(** Writing [f p] into every cell [p] of a list, in order. *)
Lemma set_cells_spec (f : Z * Z -> Z) ps b :
  wf b -> (forall r c, In (r, c) ps -> in_range r c) ->
  let b' := fold_left (fun b p => set_cell b p.1 p.2 (f p)) ps b in
  wf b' /\ forall r c, in_range r c ->
    b'@[r, c] = if decide (In (r, c) ps) then f (r, c) else b@[r, c].
Proof.
  revert b. induction ps as [|[r0 c0] ps IH]; intros b Hwf Hps; cbn [fold_left fst snd].
  { split; [done|]. intros r c _. case_decide as Hin; [destruct Hin|done]. }
  destruct (IH (set_cell b r0 c0 (f (r0, c0)))) as [Hwf' Hcell];
    [auto with sudoku|intros; apply Hps; by right|].
  assert (in_range r0 c0) by (apply Hps; by left).
  split; [done|]. intros r c Hrc. rewrite Hcell, cell_set_cell by done.
  repeat case_decide; simpl in *; naive_solver.
Qed.

(** [clear] empties every cell: the result is the board of the
    constructor. *)
Theorem clear_resets b : wf b -> clear b = new_board.
Proof.
  intros Hwf. unfold clear.
  destruct (set_cells_spec (fun _ => 0) positions b Hwf ltac:(intros ??; apply elem_positions))
    as [Hwf' Hcell].
  apply board_ext; [done|apply wf_new_board|]. intros r c Hrc.
  rewrite Hcell, new_board_cell by done. by rewrite decide_True by (by apply elem_positions).
Qed.

(** The empty grid with its second row cut to one entry. *)
Definition ragged_board : board := <[1%nat := [0]]> new_board.

(** A ragged grid whose first row has nine entries gets through the shape
    check of [initializeBoard]: the code looks at the first row only. *)
Example initializeBoard_accepts_ragged :
  initializeBoard ragged_board new_board = ragged_board /\ ~ wf ragged_board.
Proof. split; [reflexivity|]. by apply (bool_decide_unpack _); vm_compute. Qed.


(** ** Witnesses on the default puzzle *)
Lemma setValue_spec_witness : (setValue defaultPuzzle 0 2 4).2@[0, 2] = 4.
Proof.
  destruct (setValue_spec defaultPuzzle 0 2 4 true (set_cell defaultPuzzle 0 2 4))
    as (_ & Hok & _); [by_compute|vm_compute; reflexivity|].
  exact (proj1 (Hok eq_refl)).
Defined.

Lemma clear_resets_witness : clear defaultPuzzle = new_board.
Proof. apply clear_resets. by_compute. Defined.

Lemma setValue_preserves_valid_witness : valid (setValue defaultPuzzle 0 2 4).2.
Proof. apply setValue_preserves_valid. by_compute. Defined.


End Board.
