(* ===== verification/Search.v ===== *)
(** * Search: the search tree that the solver and the counter walk

    [findEmptyCell] is the scan of src/SudokuSolver.cpp.  [solutions] is
    the reference semantics of the backtracking search written as a plain
    enumeration: at the first empty cell in scan order, the digits 1..9 in
    order, each one that [isValidMove] accepts opening a subtree.  It is the
    abstract specification against which [Solver] (first leaf) and
    [Counter] (number of leaves, capped) are proved: its leaves are exactly
    the solutions of a valid grid ([solutions_sound], [solutions_complete])
    and no leaf is listed twice ([solutions_NoDup]).

    The recursion is bounded by fuel; each level fills one empty cell, so
    [S (count_empty b)] (at most 82) is enough, and any larger fuel gives
    the same tree ([solutions_fuel_irrel]). *)

From S2P Require Import Prelude Board.
Import Board.

Module Search.

(** [SudokuSolver::findEmptyCell]: the first empty cell in row-major order. *)
Definition findEmptyCell (b : board) : option (Z * Z) :=
  find (fun p => isEmpty b p.1 p.2) positions.

(** The search tree of the backtracking solver, listed leaf by leaf. *)
Fixpoint solutions (fuel : nat) (b : board) : list board :=
  match fuel with
  | O => []
  | S f =>
      match findEmptyCell b with
      | None => [b]
      | Some (r, c) =>
          flat_map (fun v => if isValidMove b r c v then solutions f (set_cell b r c v)
                             else []) digits
      end
  end.

(** ** The scan *)
Lemma findEmptyCell_Some b r c :
  findEmptyCell b = Some (r, c) -> in_range r c /\ b@[r, c] = 0.
Proof.
  unfold findEmptyCell. intros H. apply find_some in H as [_ H].
  by apply isEmpty_iff.
Qed.

Lemma findEmptyCell_None b : findEmptyCell b = None <-> complete b.
Proof.
  unfold findEmptyCell. split.
  - intros H r c Hrc Hz.
    pose proof (find_none _ _ H (r, c) (proj2 (elem_positions r c) Hrc)) as Hf.
    simpl in Hf. assert (isEmpty b r c = true) by (by apply isEmpty_iff). congruence.
  - intros Hc. destruct (find _ _) as [[r c]|] eqn:E; [|done].
    apply find_some in E as [_ E]. apply isEmpty_iff in E as [Hrc Hz].
    by destruct (Hc r c Hrc).
Qed.

(** ** One level of the tree *)
Lemma extends_set_cell s b r c v :
  wf b -> in_range r c -> b@[r, c] = 0 -> extends s (set_cell b r c v) -> extends s b.
Proof.
  intros Hwf Hrc Hz [Hws Hs]. split; [done|]. intros r' c' Hrc' Hnz.
  rewrite Hs by (rewrite ?cell_set_cell_ne; congruence || done).
  rewrite cell_set_cell_ne by (congruence || done). done.
Qed.

Lemma extends_refl b : wf b -> extends b b.
Proof. by split. Qed.

(** A complete grid has no other extension than itself. *)
Lemma extends_complete s b : wf b -> complete b -> extends s b -> s = b.
Proof.
  intros Hwf Hc [Hws Hs]. apply board_ext; auto.
Qed.

(** The digit a solution puts in an empty cell is a move the solver tries. *)
Lemma solution_move s b r c :
  valid b -> solution_of s b -> in_range r c -> b@[r, c] = 0 ->
  isValidMove b r c (s@[r, c]) = true /\ solution_of s (set_cell b r c (s@[r, c])).
Proof.
  intros Hb (Hs & Hcs & Hws & Hext) Hrc Hz.
  pose proof Hb as (Hwf & _). pose proof Hs as (_ & Hdig & Huniq).
  assert (1 <= s@[r, c] <= 9) by (specialize (Hdig r c Hrc); specialize (Hcs r c Hrc); lia).
  split.
  - apply isValidMove_iff. do 3 (split; [done|]).
    intros r' c' Hrc' Hunit Heq.
    assert ((r, c) <> (r', c')) by (intros [= <- <-]; lia).
    rewrite <- (Hext r' c') in Heq by (done || lia).
    apply (Huniq r c r' c'); auto; lia.
  - do 2 (split; [done|]). split; [done|]. intros r' c' Hrc'.
    rewrite cell_set_cell by done. case_decide; simplify_eq; auto.
Qed.

#[export] Hint Resolve extends_refl : sudoku.

(** ** The tree *)
Lemma solutions_extends fuel b s :
  wf b -> In s (solutions fuel b) -> extends s b.
Proof.
  revert b. induction fuel as [|f IH]; intros b Hwf Hin; cbn [solutions] in Hin; [done|].
  destruct (findEmptyCell b) as [[r c]|] eqn:E.
  - apply findEmptyCell_Some in E as [Hrc Hz].
    apply in_flat_map in Hin as (v & _ & Hin).
    destruct (isValidMove b r c v); [|done].
    apply (extends_set_cell _ _ r c v); auto with sudoku.
  - destruct Hin as [<-|[]]. auto with sudoku.
Qed.

(** Every leaf of the tree of a valid grid is one of its solutions. *)
Theorem solutions_sound fuel b s :
  valid b -> In s (solutions fuel b) -> solution_of s b.
Proof.
  revert b. induction fuel as [|f IH]; intros b Hb Hin; cbn [solutions] in Hin; [done|].
  pose proof Hb as [Hwf _].
  destruct (findEmptyCell b) as [[r c]|] eqn:E.
  - pose proof (findEmptyCell_Some _ _ _ E) as [Hrc Hz].
    apply in_flat_map in Hin as (v & _ & Hin).
    destruct (isValidMove b r c v) eqn:Hm; [|done].
    apply IH in Hin as (Hs & Hcs & Hext); [|by apply valid_set_cell].
    do 2 (split; [done|]). by apply (extends_set_cell s b r c v).
  - destruct Hin as [<-|[]]. apply findEmptyCell_None in E.
    split; [done|split; [done|auto with sudoku]].
Qed.

(** With enough fuel, every solution of a valid grid is a leaf. *)
Theorem solutions_complete fuel b s :
  valid b -> (count_empty b < fuel)%nat -> solution_of s b -> In s (solutions fuel b).
Proof.
  revert b. induction fuel as [|f IH]; intros b Hb Hfuel Hs; [lia|cbn [solutions]].
  pose proof Hb as [Hwf _].
  destruct (findEmptyCell b) as [[r c]|] eqn:E.
  - pose proof (findEmptyCell_Some _ _ _ E) as [Hrc Hz].
    destruct (solution_move s b r c Hb Hs Hrc Hz) as [Hm Hs'].
    apply in_flat_map. exists (s@[r, c]). split.
    + apply elem_digits. apply isValidMove_empty in Hm. lia.
    + rewrite Hm. apply IH; [by apply valid_set_cell| |done].
      apply isValidMove_empty in Hm.
      rewrite (count_empty_set_cell b r c (s@[r, c])) in Hfuel by (done || lia). lia.
  - apply findEmptyCell_None in E. left. symmetry.
    apply (extends_complete s b); [done|done|apply Hs].
Qed.

(** Different digits in the first empty cell lead to different leaves. *)
Theorem solutions_NoDup fuel b : wf b -> List.NoDup (solutions fuel b).
Proof.
  revert b. induction fuel as [|f IH]; intros b Hwf; cbn [solutions]; [constructor|].
  destruct (findEmptyCell b) as [[r c]|] eqn:E; [|constructor; [intros []|constructor]].
  pose proof (findEmptyCell_Some _ _ _ E) as [Hrc Hz].
  apply NoDup_flat_map_disjoint; [apply NoDup_digits| |].
  - intros v _. destruct (isValidMove b r c v); [apply IH; auto with sudoku|constructor].
  - intros v v' s _ _ Hs Hs'.
    destruct (isValidMove b r c v) eqn:Hm; [|done].
    destruct (isValidMove b r c v') eqn:Hm'; [|done].
    apply solutions_extends in Hs as [_ Hs]; [|auto with sudoku].
    apply solutions_extends in Hs' as [_ Hs']; [|auto with sudoku].
    apply isValidMove_empty in Hm, Hm'.
    specialize (Hs r c Hrc). specialize (Hs' r c Hrc).
    rewrite !cell_set_cell_eq in Hs, Hs' by done.
    rewrite <- Hs, <- Hs'; lia.
Qed.

(** Fuel beyond the number of empty cells does not change the tree. *)
Lemma solutions_fuel_irrel n m b :
  wf b -> (count_empty b < n)%nat -> (count_empty b < m)%nat ->
  solutions n b = solutions m b.
Proof.
  revert m b. induction n as [|n IH]; intros m b Hwf Hn Hm; [lia|].
  destruct m as [|m]; [lia|]. cbn [solutions].
  destruct (findEmptyCell b) as [[r c]|] eqn:E; [|done].
  pose proof (findEmptyCell_Some _ _ _ E) as [Hrc Hz].
  apply flat_map_ext. intros v. destruct (isValidMove b r c v) eqn:Hv; [|done].
  apply isValidMove_empty in Hv.
  rewrite (count_empty_set_cell b r c v) in Hn, Hm by (done || lia).
  apply IH; auto with sudoku; lia.
Qed.

End Search.
