(* ===== verification/Solver.v ===== *)
(** * Solver: [SudokuSolver::solve] and [SudokuSolver::isValidBoard]

    Module [Solver] models src/SudokuSolver.cpp.  [solveRecursive] mutates
    the caller's board: it writes the trial digit, recurses, and on failure
    writes 0 back into the board the failed recursion left behind.  The
    model threads that board explicitly and returns [None] only when the
    fuel runs out; [try_digits] is the [for (num = 1; num <= 9; num++)]
    loop.  [isValidBoard] threads the board through its
    remove/check/restore steps (the [const_cast] writes) in the same way.

    The theorems: [solveRecursive] returns the first leaf of the reference
    tree [Search.solutions] (refinement), so it is sound, complete, returns
    the unique solution when there is one, leaves the board unchanged when
    it fails, and never runs out of its 82 units of fuel on a 9x9 board;
    [isValidBoard] restores the board and decides [valid]. *)

From S2P Require Import Prelude Board Search.
Import Board Search.

Module Solver.

(** The digit loop of [solveRecursive]; [rec] is the recursive call. *)
Fixpoint try_digits (rec : board -> option (bool * board)) (row col : Z)
    (nums : list Z) (b : board) : option (bool * board) :=
  match nums with
  | [] => Some (false, b)
  | num :: rest =>
      if isValidMove b row col num then
        match rec (set_cell b row col num) with
        | None => None
        | Some (true, b') => Some (true, b')
        | Some (false, b') => try_digits rec row col rest (set_cell b' row col 0)
        end
      else try_digits rec row col rest b
  end.

(** [SudokuSolver::solveRecursive]; [None] means the fuel ran out. *)
Fixpoint solveRecursive (fuel : nat) (b : board) : option (bool * board) :=
  match fuel with
  | O => None
  | S f =>
      match findEmptyCell b with
      | None => Some (true, b)
      | Some (row, col) => try_digits (solveRecursive f) row col digits b
      end
  end.

(** One level per empty cell, at most 81 of them, plus the final scan. *)
Definition SOLVER_FUEL : nat := 82.

(** [SudokuSolver::solve]: the result flag and the board after the call. *)
Definition solve (b : board) : bool * board :=
  match solveRecursive SOLVER_FUEL b with
  | Some res => res
  | None => (false, b)
  end.

(** One iteration of [isValidBoard]: remove the value, ask
    [isValidMove], restore the value. *)
Definition check_cell (b : board) (i j : Z) : bool * board :=
  let value := b@[i, j] in
  if negb (value =? 0) then
    let b1 := set_cell b i j 0 in
    let isValid := isValidMove b1 i j value in
    (isValid, set_cell b1 i j value)
  else (true, b).

Fixpoint check_cells (ps : list (Z * Z)) (b : board) : bool * board :=
  match ps with
  | [] => (true, b)
  | (i, j) :: rest =>
      let '(ok, b') := check_cell b i j in
      if ok then check_cells rest b' else (false, b')
  end.

(** [SudokuSolver::isValidBoard]: the verdict and the board afterwards. *)
Definition isValidBoard (b : board) : bool * board := check_cells positions b.

(** The first leaf of a search tree, as [solveRecursive] reports it. *)
Definition first_leaf (l : list board) (b : board) : bool * board :=
  match l with
  | [] => (false, b)
  | s :: _ => (true, s)
  end.

(** ** Refinement of the reference search *)

Section TryDigits.

Variable f : nat.
Variables (b : board) (row col : Z).
Hypothesis Hwf : wf b.
Hypothesis Hrc : in_range row col.
Hypothesis Hempty : b@[row, col] = 0.
Hypothesis Hrec : forall v, isValidMove b row col v = true ->
  solveRecursive f (set_cell b row col v) =
  Some (first_leaf (solutions f (set_cell b row col v)) (set_cell b row col v)).

(** The digit loop returns the first leaf of the subtrees it walks, and a
    failed iteration gives the loop back the board it started from. *)
Lemma try_digits_first_leaf nums :
  try_digits (solveRecursive f) row col nums b =
  Some (first_leaf (flat_map (fun v => if isValidMove b row col v
                                       then solutions f (set_cell b row col v) else [])
                      nums) b).
Proof.
  induction nums as [|v nums IH]; [done|]. cbn [try_digits flat_map].
  destruct (isValidMove b row col v) eqn:Hv; [|done].
  rewrite Hrec by done.
  destruct (solutions f (set_cell b row col v)) as [|s l]; [|done].
  cbn [first_leaf app]. rewrite set_cell_set_cell, <- Hempty, set_cell_id by done.
  done.
Qed.

End TryDigits.

Lemma solveRecursive_first_leaf fuel b :
  wf b -> (count_empty b < fuel)%nat ->
  solveRecursive fuel b = Some (first_leaf (solutions fuel b) b).
Proof.
  revert b. induction fuel as [|f IH]; intros b Hwf Hfuel; [lia|].
  cbn [solveRecursive solutions].
  destruct (findEmptyCell b) as [[r c]|] eqn:E; [|done].
  pose proof (findEmptyCell_Some _ _ _ E) as [Hrc Hz].
  apply try_digits_first_leaf; auto. intros v Hv.
  apply isValidMove_empty in Hv. apply IH; [auto with sudoku|].
  rewrite (count_empty_set_cell b r c v) in Hfuel by (done || lia). lia.
Qed.

(** C7: [solve] reports the first solution of the reference search, in the
    order of the scan and of the digit loop. *)
Theorem solve_refines b :
  wf b -> solve b = first_leaf (solutions (S (count_empty b)) b) b.
Proof.
  intros Hwf. unfold solve.
  pose proof (count_empty_le b).
  rewrite solveRecursive_first_leaf by (done || unfold SOLVER_FUEL; lia).
  f_equal. apply solutions_fuel_irrel; (done || unfold SOLVER_FUEL; lia).
Qed.

(** C27: The search never runs out of its fuel: [solveRecursive] returns. *)
Theorem solveRecursive_terminates b :
  wf b -> exists res, solveRecursive SOLVER_FUEL b = Some res.
Proof.
  intros Hwf. pose proof (count_empty_le b). eexists.
  apply solveRecursive_first_leaf; [done|unfold SOLVER_FUEL; lia].
Qed.

Lemma solve_cases b :
  wf b ->
  (solutions (S (count_empty b)) b = [] /\ solve b = (false, b)) \/
  (exists s l, solutions (S (count_empty b)) b = s :: l /\ solve b = (true, s)).
Proof.
  intros Hwf. rewrite solve_refines by done.
  destruct (solutions _ b) as [|s l]; [left|right; exists s, l]; done.
Qed.

(** The solver on a valid grid: success hands back a solution, and a grid
    with a solution is solved. *)
Lemma solve_spec b :
  valid b ->
  (forall s, solve b = (true, s) -> solution_of s b) /\
  ((exists s, solution_of s b) -> (solve b).1 = true).
Proof.
  intros Hb. pose proof Hb as [Hwf _]. split.
  - intros s Hsolve.
    destruct (solve_cases b Hwf) as [[_ Hs]|(s' & l & Hl & Hs)]; rewrite Hsolve in Hs;
      [congruence|]. simplify_eq.
    apply (solutions_sound (S (count_empty b))); [done|]. rewrite Hl. by left.
  - intros [s Hs]. pose proof (solutions_complete (S (count_empty b)) b s Hb
      ltac:(lia) Hs) as Hin.
    destruct (solve_cases b Hwf) as [[Hl _]|(? & ? & _ & ->)]; [|done].
    by rewrite Hl in Hin.
Qed.

(** C1: Soundness: on a valid grid, success hands back a solution of it. *)
Theorem solve_sound b s :
  valid b -> solve b = (true, s) -> solution_of s b.
Proof. intros Hb. apply (solve_spec b Hb). Qed.

(** C2: Completeness: on a valid grid that has a solution, [solve] succeeds. *)
Theorem solve_complete b s :
  valid b -> solution_of s b -> (solve b).1 = true.
Proof. intros Hb Hs. apply (solve_spec b Hb). by exists s. Qed.

(** [solve] leaves a valid board when it starts from one. *)
Lemma solve_valid b : valid b -> valid (solve b).2.
Proof.
  intros Hb. pose proof Hb as [Hwf _].
  destruct (solve_cases b Hwf) as [[_ ->]|(s & l & Hl & E)]; [done|]. rewrite E.
  apply (proj1 (solve_spec b Hb) s E).
Qed.

(** A grid with exactly one solution is solved to that solution. *)
Theorem solve_unique b s :
  valid b -> solution_of s b -> (forall s', solution_of s' b -> s' = s) ->
  solve b = (true, s).
Proof.
  intros Hb Hs Huniq.
  destruct (solve_cases b) as [[Hl _]|(s' & l & Hl & ->)]; [apply Hb| |].
  - pose proof (solutions_complete (S (count_empty b)) b s Hb ltac:(lia) Hs) as Hin.
    by rewrite Hl in Hin.
  - f_equal. apply Huniq, (solutions_sound (S (count_empty b))); [done|].
    rewrite Hl. by left.
Qed.

(** C25: A failed search unwinds every trial digit: the board is unchanged. *)
Theorem solve_fail_restores b b' :
  wf b -> solve b = (false, b') -> b' = b.
Proof.
  intros Hwf Hsolve.
  destruct (solve_cases b) as [[_ Hs]|(? & ? & _ & Hs)]; [done| |];
    rewrite Hsolve in Hs; congruence.
Qed.

(** ** [isValidBoard] *)
Lemma check_cell_spec b i j :
  wf b -> in_range i j ->
  (check_cell b i j).2 = b /\ ((check_cell b i j).1 = true <-> cell_ok b i j).
Proof.
  intros Hwf Hij. unfold check_cell, cell_ok.
  destruct (Z.eqb_spec (b@[i, j]) 0) as [Hz|Hnz]; cbn [negb fst snd].
  { split; [done|]. split; [by left|done]. }
  rewrite set_cell_set_cell, set_cell_id by done. split; [done|].
  rewrite isValidMove_iff, cell_set_cell_eq by done.
  split.
  - intros (_ & Hv & _ & H). right. split; [lia|].
    intros r' c' Hrc' Hne Hunit Heq. apply (H r' c' Hrc' Hunit).
    rewrite cell_set_cell_ne by done. congruence.
  - intros [?|[Hv H]]; [contradiction|]. do 3 (split; [done|]).
    intros r' c' Hrc' Hunit.
    rewrite cell_set_cell by done. case_decide; [lia|].
    intros Heq. by apply (H r' c').
Qed.

Lemma check_cells_spec ps b :
  wf b -> (forall i j, In (i, j) ps -> in_range i j) ->
  (check_cells ps b).2 = b /\
  ((check_cells ps b).1 = true <-> forall i j, In (i, j) ps -> cell_ok b i j).
Proof.
  intros Hwf. induction ps as [|[i j] ps IH]; intros Hps; cbn [check_cells].
  { split; [done|]. split; [intros _ ? ? []|done]. }
  assert (Hij : in_range i j) by (apply Hps; by left).
  destruct (check_cell_spec b i j Hwf Hij) as [Hb Hok].
  destruct (check_cell b i j) as [ok b'] eqn:E. cbn in Hb, Hok. subst b'.
  destruct ok.
  - destruct IH as [IHb IHok]; [intros; apply Hps; by right|].
    split; [done|]. rewrite IHok.
    split; [intros H i' j' [[= <- <-]|Hin]; [by apply Hok|auto]|].
    intros H i' j' Hin. apply H. by right.
  - split; [done|]. split; [done|]. intros H. apply Hok, H. by left.
Qed.

(** C29: The [const_cast] writes of [isValidBoard] cancel: the board is
    unchanged. *)
Theorem isValidBoard_restores b : wf b -> (isValidBoard b).2 = b.
Proof.
  intros Hwf. apply check_cells_spec; [done|]. intros i j. apply elem_positions.
Qed.

(** C28: [isValidBoard] decides the grid invariant. *)
Theorem isValidBoard_iff b : wf b -> (isValidBoard b).1 = true <-> valid b.
Proof.
  intros Hwf. unfold isValidBoard. rewrite valid_iff_cells_ok by done.
  rewrite (proj2 (check_cells_spec positions b Hwf ltac:(intros ??; apply elem_positions))).
  setoid_rewrite elem_positions. done.
Qed.



(** ** Concrete runs *)

(** The solution [solve] finds for the default puzzle. *)
Definition defaultSolution : board :=
  [[5; 3; 4; 6; 7; 8; 9; 1; 2]; [6; 7; 2; 1; 9; 5; 3; 4; 8];
   [1; 9; 8; 3; 4; 2; 5; 6; 7]; [8; 5; 9; 7; 6; 1; 4; 2; 3];
   [4; 2; 6; 8; 5; 3; 7; 9; 1]; [7; 1; 3; 9; 2; 4; 8; 5; 6];
   [9; 6; 1; 5; 3; 7; 2; 8; 4]; [2; 8; 7; 4; 1; 9; 6; 3; 5];
   [3; 4; 5; 2; 8; 6; 1; 7; 9]].

(** The solution with cell (0,0) emptied and a second 5 written at (0,1):
    no digit fits (0,0) any more. *)
Definition deadEnd : board := set_cell (set_cell defaultSolution 0 0 0) 0 1 5.

(** A full grid with two 5s in row 0. *)
Definition conflictingFull : board := set_cell defaultSolution 0 1 5.

Lemma solve_refines_witness :
  solve defaultPuzzle = first_leaf (solutions (S (count_empty defaultPuzzle)) defaultPuzzle)
                          defaultPuzzle.
Proof. apply solve_refines. by_compute. Defined.

Lemma solveRecursive_terminates_witness :
  exists res, solveRecursive SOLVER_FUEL defaultPuzzle = Some res.
Proof. apply solveRecursive_terminates. by_compute. Defined.

Lemma solve_sound_witness : solution_of defaultSolution defaultPuzzle.
Proof.
  apply (solve_sound defaultPuzzle defaultSolution); [by_compute|vm_compute; reflexivity].
Defined.

Lemma solve_complete_witness : (solve defaultPuzzle).1 = true.
Proof. apply (solve_complete defaultPuzzle defaultSolution); by_compute. Defined.

Lemma solve_fail_restores_witness : (solve deadEnd).2 = deadEnd.
Proof.
  apply (solve_fail_restores deadEnd); [by_compute|vm_compute; reflexivity].
Defined.

Lemma isValidBoard_restores_witness : (isValidBoard deadEnd).2 = deadEnd.
Proof. apply isValidBoard_restores. by_compute. Defined.

Lemma isValidBoard_iff_witness : (isValidBoard defaultPuzzle).1 = true <-> valid defaultPuzzle.
Proof. apply isValidBoard_iff. by_compute. Defined.

(** C32: [solve] reports success on every grid without an empty cell and
    returns it unchanged, whatever its digits: the search never checks the
    filled cells, so a full grid that breaks the rules, and has no
    solution, is reported solved. *)
Theorem solve_accepts_full_grid b : complete b -> solve b = (true, b).
Proof.
  intros Hc. unfold solve, SOLVER_FUEL. cbn [solveRecursive].
  by rewrite (proj2 (findEmptyCell_None b) Hc).
Qed.

Lemma solve_accepts_full_grid_witness :
  solve conflictingFull = (true, conflictingFull) /\ ~ valid conflictingFull.
Proof. split; [apply solve_accepts_full_grid; by_compute|by_compute]. Defined.

End Solver.
