(* ===== verification/Counter.v ===== *)
(** * Counter: [SudokuGenerator::countSolutions] and [hasUniqueSolution]

    Module [Counter] models the solution counter of
    src/Sudoku/src/SudokuGenerator.cpp.  [countSolutions] takes the board
    by value: the recursive call works on its own copy, and the caller
    writes 0 back into its copy after each trial digit.  [count_digits] is
    the loop [for (num = 1; num <= 9 && solutionCount < maxSolutions; ...)],
    whose recursive calls get the remaining budget
    [maxSolutions - solutionCount].  The recursion uses the solver's fuel
    [Solver.SOLVER_FUEL]; [None] means it ran out.

    The theorems: with a budget of at least 1, the count is the number of
    leaves of the reference tree capped at the budget (refinement), hence
    the number of solutions of a valid grid capped at the budget; the
    count never exceeds the budget; [hasUniqueSolution] holds exactly when
    the grid has one solution, and then [Solver.solve] returns that
    solution. *)

From S2P Require Import Prelude Board Search Solver.
Import Board Search Solver.

Module Counter.

(** The digit loop of [countSolutions]; [rec] is the recursive call. *)
Fixpoint count_digits (rec : board -> Z -> option Z) (row col : Z) (nums : list Z)
    (b : board) (maxSolutions solutionCount : Z) : option Z :=
  match nums with
  | [] => Some solutionCount
  | num :: rest =>
      if solutionCount <? maxSolutions then
        if isValidMove b row col num then
          let b1 := set_cell b row col num in
          match rec b1 (maxSolutions - solutionCount) with
          | None => None
          | Some k =>
              count_digits rec row col rest (set_cell b1 row col 0)
                maxSolutions (solutionCount + k)
          end
        else count_digits rec row col rest b maxSolutions solutionCount
      else Some solutionCount
  end.

(** [countSolutions] with its fuel. *)
Fixpoint count_fuel (fuel : nat) (b : board) (maxSolutions : Z) : option Z :=
  match fuel with
  | O => None
  | S f =>
      match findEmptyCell b with
      | None => Some 1
      | Some (row, col) => count_digits (count_fuel f) row col digits b maxSolutions 0
      end
  end.

(** [SudokuGenerator::countSolutions(board, maxSolutions)]. *)
Definition countSolutions (b : board) (maxSolutions : Z) : Z :=
  match count_fuel SOLVER_FUEL b maxSolutions with
  | Some n => n
  | None => 0
  end.

(** [SudokuGenerator::hasUniqueSolution]. *)
Definition hasUniqueSolution (b : board) : bool := countSolutions b 2 =? 1.

(** ** Refinement of the reference search *)

Section CountDigits.

Variable f : nat.
Variables (b : board) (row col : Z).
Hypothesis Hwf : wf b.
Hypothesis Hrc : in_range row col.
Hypothesis Hempty : b@[row, col] = 0.
Hypothesis Hrec : forall v m, isValidMove b row col v = true -> 1 <= m ->
  count_fuel f (set_cell b row col v) m =
  Some (Z.min m (Z.of_nat (length (solutions f (set_cell b row col v))))).

(** The loop adds up the subtree counts, each capped at the remaining
    budget, and stops at the budget. *)
Lemma count_digits_capped nums m cnt :
  0 <= cnt <= m ->
  count_digits (count_fuel f) row col nums b m cnt =
  Some (Z.min m (cnt + Z.of_nat (length (flat_map (fun v =>
    if isValidMove b row col v then solutions f (set_cell b row col v) else []) nums)))).
Proof.
  revert cnt. induction nums as [|v nums IH]; intros cnt Hcnt; cbn [count_digits flat_map].
  { f_equal. simpl. lia. }
  rewrite length_app, Nat2Z.inj_add.
  destruct (Z.ltb_spec cnt m); [|f_equal; lia].
  destruct (isValidMove b row col v) eqn:Hv.
  - rewrite Hrec by (done || lia).
    rewrite set_cell_set_cell, <- Hempty, set_cell_id by done.
    rewrite IH by lia. f_equal; lia.
  - rewrite IH by lia. simpl. f_equal; lia.
Qed.

End CountDigits.

Lemma count_fuel_capped fuel b m :
  wf b -> (count_empty b < fuel)%nat -> 1 <= m ->
  count_fuel fuel b m = Some (Z.min m (Z.of_nat (length (solutions fuel b)))).
Proof.
  revert b m. induction fuel as [|f IH]; intros b m Hwf Hfuel Hm; [lia|].
  cbn [count_fuel solutions].
  destruct (findEmptyCell b) as [[r c]|] eqn:E; [|f_equal; simpl; lia].
  pose proof (findEmptyCell_Some _ _ _ E) as [Hrc Hz].
  rewrite (count_digits_capped f b r c); [f_equal; lia|done|done|done| |lia].
  intros v m' Hv Hm'. apply isValidMove_empty in Hv. apply IH; [auto with sudoku| |done].
  rewrite (count_empty_set_cell b r c v) in Hfuel by (done || lia). lia.
Qed.

(** C8: [countSolutions] counts the leaves of the reference tree, capped at the
    budget. *)
Theorem countSolutions_refines b m :
  wf b -> 1 <= m ->
  countSolutions b m = Z.min m (Z.of_nat (length (solutions (S (count_empty b)) b))).
Proof.
  intros Hwf Hm. unfold countSolutions. pose proof (count_empty_le b).
  rewrite count_fuel_capped by (done || unfold SOLVER_FUEL; lia).
  rewrite (solutions_fuel_irrel SOLVER_FUEL (S (count_empty b))) by
    (done || unfold SOLVER_FUEL; lia). done.
Qed.

(** ** The count of a valid grid *)

(** The leaves of the reference tree of a valid grid are its solutions,
    each listed once. *)
Lemma solutions_exact b :
  valid b ->
  List.NoDup (solutions (S (count_empty b)) b) /\
  forall s, In s (solutions (S (count_empty b)) b) <-> solution_of s b.
Proof.
  intros Hb. split; [apply solutions_NoDup, Hb|]. intros s. split.
  - apply solutions_sound, Hb.
  - intros Hs. apply solutions_complete; [done|lia|done].
Qed.

(** A duplicate-free list of the solutions has length 1 exactly when the
    solution is unique. *)
Lemma length_one_unique b (l : list board) :
  List.NoDup l -> (forall s, In s l <-> solution_of s b) ->
  length l = 1%nat <-> exists s, solution_of s b /\ forall s', solution_of s' b -> s' = s.
Proof.
  intros Hnd Hl. split.
  - destruct l as [|s [|s' l]]; simpl; [lia| |lia]. intros _. exists s.
    split; [apply Hl; by left|]. intros s' Hs'. apply Hl in Hs' as [->|[]]. done.
  - intros (s & Hs & Hu). apply Hl in Hs.
    assert (incl l [s]) by (intros x Hx; left; symmetry; apply Hu, Hl, Hx).
    apply NoDup_incl_length in H; [|done]. destruct l; simpl in *; [done|lia].
Qed.

Lemma unique_iff_count b :
  valid b ->
  countSolutions b 2 = 1 <->
  exists s, solution_of s b /\ forall s', solution_of s' b -> s' = s.
Proof.
  intros Hb. destruct (solutions_exact b Hb) as [Hnd Hl].
  rewrite <- (length_one_unique b _ Hnd Hl).
  rewrite countSolutions_refines by (apply Hb || lia). lia.
Qed.

(** C12: The counter of a valid grid returns the number of its solutions,
    capped at the budget: there is a duplicate-free list of exactly its
    solutions whose length, capped at [m], is [countSolutions b m]. *)
Theorem countSolutions_counts b m :
  valid b -> 1 <= m ->
  exists l : list board, List.NoDup l /\ (forall s, In s l <-> solution_of s b) /\
    countSolutions b m = Z.min m (Z.of_nat (length l)).
Proof.
  intros Hb Hm. destruct (solutions_exact b Hb) as [Hnd Hl].
  exists (solutions (S (count_empty b)) b). do 2 (split; [done|]).
  apply countSolutions_refines; [apply Hb|done].
Qed.

(** C3: [hasUniqueSolution] decides whether a valid grid has exactly one
    solution. *)
Theorem hasUniqueSolution_iff b :
  valid b ->
  hasUniqueSolution b = true <->
  exists s, solution_of s b /\ forall s', solution_of s' b -> s' = s.
Proof. intros Hb. unfold hasUniqueSolution. rewrite Z.eqb_eq. by apply unique_iff_count. Qed.

(** C26: A grid the counter certifies as unique is solved by [solve] to its
    solution. *)
Theorem solve_reproduces_unique b s :
  valid b -> hasUniqueSolution b = true -> solution_of s b -> solve b = (true, s).
Proof.
  intros Hb Hu Hs. unfold hasUniqueSolution in Hu. apply Z.eqb_eq in Hu.
  apply unique_iff_count in Hu as (s0 & Hs0 & Hu); [|done].
  apply solve_unique; [done|done|]. intros s' Hs'. by rewrite (Hu s' Hs'), (Hu s Hs).
Qed.

(** ** Concrete runs *)
Lemma countSolutions_refines_witness :
  countSolutions defaultPuzzle 2 =
  Z.min 2 (Z.of_nat (length (solutions (S (count_empty defaultPuzzle)) defaultPuzzle))).
Proof. apply countSolutions_refines; [by_compute|lia]. Defined.

Lemma countSolutions_counts_witness :
  exists l : list board, List.NoDup l /\ (forall s, In s l <-> solution_of s defaultPuzzle) /\
    countSolutions defaultPuzzle 2 = Z.min 2 (Z.of_nat (length l)).
Proof. apply countSolutions_counts; [by_compute|lia]. Defined.

Lemma hasUniqueSolution_iff_witness :
  hasUniqueSolution defaultPuzzle = true <->
  exists s, solution_of s defaultPuzzle /\ forall s', solution_of s' defaultPuzzle -> s' = s.
Proof. apply hasUniqueSolution_iff. by_compute. Defined.

Lemma solve_reproduces_unique_witness : solve defaultPuzzle = (true, defaultSolution).
Proof.
  apply solve_reproduces_unique; [by_compute|vm_compute; reflexivity|by_compute].
Defined.

(** The empty grid has many solutions; the counter stops at its cap. *)
Example countSolutions_empty_grid : countSolutions new_board 2 = 2.
Proof. vm_compute. reflexivity. Qed.

(** One unit of fuel unfolds one call of [countSolutionsHelper]. *)
Lemma count_fuel_unfold f b m :
  count_fuel (S f) b m =
  match findEmptyCell b with
  | None => Some 1
  | Some (row, col) => count_digits (count_fuel f) row col digits b m 0
  end.
Proof. reflexivity. Qed.

(** C33: With a budget of 0 or less, [countSolutions] returns 1 on a grid
    with no empty cell and 0 on any other grid: the scan returns 1 before
    the budget is looked at, and otherwise the digit loop stops before its
    first trial. *)
Theorem countSolutions_zero_budget b m :
  m <= 0 -> countSolutions b m = if isFull b then 1 else 0.
Proof.
  intros Hm. unfold countSolutions, SOLVER_FUEL. rewrite count_fuel_unfold.
  destruct (findEmptyCell b) as [[r c]|] eqn:E.
  - assert (isFull b = false) as ->.
    { apply not_true_iff_false. rewrite isFull_iff, <- findEmptyCell_None. congruence. }
    unfold digits. cbn [count_digits]. by destruct (Z.ltb_spec 0 m); [lia|].
  - apply findEmptyCell_None, isFull_iff in E. by rewrite E.
Qed.

Lemma countSolutions_zero_budget_witness :
  countSolutions defaultSolution 0 = 1 /\ countSolutions defaultPuzzle 0 = 0.
Proof.
  rewrite !(countSolutions_zero_budget _ 0) by lia. split; vm_compute; reflexivity.
Defined.

End Counter.
