(* ===== verification/Generator.v ===== *)
(** * Generator: [SudokuGenerator]'s complete grids and puzzles

    Module [Generator] models src/Sudoku/src/SudokuGenerator.cpp.  The
    process-wide [std::mt19937 rng] and the [std::shuffle] calls on it are
    the interface [RandomSource]: a state type with [shuffle], which returns
    the shuffled list and the next state, and [seed] for [setSeed].  Its law
    [shuffle_perm] (a shuffle is a permutation) is all the proofs assume of
    the random source, so they hold for [std::shuffle] over [mt19937] and
    for the deterministic source [rotate_source] used by the concrete runs.

    The C++ [generateComplete] calls itself again whenever the solver fails,
    with no bound; the model gives it a number of attempts and returns
    [None] when they are used up.  [removeCells] is the carving loop with
    its early [break]; [generatePuzzle] chains the two. *)

From S2P Require Import Prelude Board Search Solver Counter.
From Stdlib Require Import Permutation.
Import Board Search Solver Counter.

Module Generator.

(** [enum class Difficulty { EASY, MEDIUM, HARD }]. *)
Inductive Difficulty := EASY | MEDIUM | HARD.

#[export] Instance Difficulty_eq_dec : EqDecision Difficulty.
Proof. solve_decision. Defined.

(** The random source: [std::mt19937] with [std::shuffle] and [seed]. *)
Class RandomSource (G : Type) := {
  shuffle {A : Type} : list A -> G -> list A * G;
  seed : Z -> G
}.

Class RandomSourceLaws (G : Type) `{RandomSource G} := {
  shuffle_perm {A : Type} (l : list A) (g : G) : Permutation (shuffle l g).1 l
}.

Section Generator.

Context {G : Type} `{RandomSource G}.

(** [SudokuGenerator::setSeed]. *)
Definition setSeed (s : Z) : G := seed s.

(** The cells of a box relative to its corner, in the order of the loops
    [for (i ...) for (j ...)]. *)
Definition box_offsets : list (Z * Z) := list_prod (upto 3) (upto 3).

(** The loop body [board[row + i][col + j] = numbers[index++]]. *)
Fixpoint fill_cells (numbers : list Z) (row col : Z) (ps : list (Z * Z))
    (b : board) (index : nat) : board :=
  match ps with
  | [] => b
  | (i, j) :: rest =>
      fill_cells numbers row col rest
        (set_cell b (row + i) (col + j) (nth index numbers 0)) (S index)
  end.

(** [SudokuGenerator::fillDiagonalBox]. *)
Definition fillDiagonalBox (b : board) (g : G) (row col : Z) : board * G :=
  let '(numbers, g') := shuffle digits g in
  (fill_cells numbers row col box_offsets b 0, g').

(** The loop [for (int box = 0; box < 3; box++)] of [generateComplete]. *)
Definition fillDiagonal (b : board) (g : G) : board * G :=
  fold_left (fun '(b, g) box => fillDiagonalBox b g (box * 3) (box * 3)) (upto 3) (b, g).

(** [SudokuGenerator::generateComplete], retrying at most [attempts]
    times. *)
Fixpoint generateComplete (attempts : nat) (g : G) : option (board * G) :=
  match attempts with
  | O => None
  | S n =>
      let '(b, g') := fillDiagonal new_board g in
      let '(ok, b') := solve b in
      if ok then Some (b', g') else generateComplete n g'
  end.

(** [SudokuGenerator::fillBoard]. *)
Definition fillBoard (b : board) : bool * board := solve b.

(** The carving loop of [removeCells]; the result is the board and the
    number of cells removed. *)
Fixpoint remove_loop (ps : list (Z * Z)) (b : board) (cellsToRemove removed : Z)
    : board * Z :=
  match ps with
  | [] => (b, removed)
  | (row, col) :: rest =>
      if removed >=? cellsToRemove then (b, removed)
      else
        let backup := getValue b row col in
        let b1 := set_cell b row col 0 in
        if hasUniqueSolution b1 then remove_loop rest b1 cellsToRemove (removed + 1)
        else remove_loop rest (set_cell b1 row col backup) cellsToRemove removed
  end.

(** [SudokuGenerator::removeCells]. *)
Definition removeCells (b : board) (cellsToRemove : Z) (g : G) : board * G :=
  let '(ps, g') := shuffle positions g in
  ((remove_loop ps b cellsToRemove 0).1, g').

(** The [switch] of [generatePuzzle]. *)
Definition cellsToRemove (d : Difficulty) : Z :=
  match d with
  | EASY => 40
  | MEDIUM => 50
  | HARD => 60
  end.

(** [SudokuGenerator::generatePuzzle]. *)
Definition generatePuzzle (attempts : nat) (d : Difficulty) (g : G) : option (board * G) :=
  match generateComplete attempts g with
  | None => None
  | Some (b, g') => Some (removeCells b (cellsToRemove d) g')
  end.

End Generator.

(** ** Filling a box *)

Section Fill.

Variables (numbers : list Z) (row col : Z).

Lemma wf_fill_cells ps b index : wf b -> wf (fill_cells numbers row col ps b index).
Proof.
  revert b index. induction ps as [|[i j] ps IH]; intros b index Hwf; [done|].
  cbn [fill_cells]. auto with sudoku.
Qed.

Lemma fill_cells_other ps b index r c :
  wf b -> in_range r c ->
  (forall p, In p ps -> in_range (row + p.1) (col + p.2)) ->
  (forall p, In p ps -> (row + p.1, col + p.2) <> (r, c)) ->
  (fill_cells numbers row col ps b index)@[r, c] = b@[r, c].
Proof.
  revert b index. induction ps as [|[i j] ps IH]; intros b index Hwf Hrc Hin Hne; [done|].
  cbn [fill_cells]. rewrite IH; auto with sudoku.
  - apply cell_set_cell_ne; [done|apply (Hin (i, j))|done|apply (Hne (i, j))]; by left.
  - intros p Hp. apply Hin. by right.
  - intros p Hp. apply Hne. by right.
Qed.

Lemma fill_cells_at ps b index k :
  wf b -> (forall p, In p ps -> in_range (row + p.1) (col + p.2)) ->
  List.NoDup (map (fun p => (row + p.1, col + p.2)) ps) -> (k < length ps)%nat ->
  (fill_cells numbers row col ps b index)@[row + (nth k ps (0, 0)).1, col + (nth k ps (0, 0)).2]
  = nth (index + k) numbers 0.
Proof.
  revert b index k. induction ps as [|[i j] ps IH]; intros b index k Hwf Hin Hnd Hk;
    cbn in Hk; [lia|]. cbn [fill_cells map] in *.
  inversion Hnd as [|? ? Hnotin Hnd']; subst.
  assert (in_range (row + i) (col + j)) by (apply (Hin (i, j)); by left).
  destruct k as [|k]; cbn [nth fst snd].
  - rewrite fill_cells_other; auto with sudoku.
    + rewrite cell_set_cell_eq by done. by rewrite Nat.add_0_r.
    + intros p Hp. apply Hin. by right.
    + intros p Hp Heq. apply Hnotin, in_map_iff. by exists p.
  - rewrite IH.
    + f_equal. lia.
    + auto with sudoku.
    + intros p Hp. apply Hin. by right.
    + done.
    + lia.
Qed.

End Fill.

Lemma box_offsets_nth i j :
  0 <= i < 3 -> 0 <= j < 3 -> nth (Z.to_nat (i * 3 + j)) box_offsets (0, 0) = (i, j).
Proof.
  intros Hi Hj.
  assert (i = 0 \/ i = 1 \/ i = 2) as [-> | [-> | -> ] ] by lia;
  assert (j = 0 \/ j = 1 \/ j = 2) as [-> | [-> | -> ] ] by lia; reflexivity.
Qed.

Lemma elem_box_offsets p : In p box_offsets <-> 0 <= p.1 < 3 /\ 0 <= p.2 < 3.
Proof. destruct p. unfold box_offsets. rewrite in_prod_iff, !elem_upto. done. Qed.

Lemma NoDup_box_shift row col :
  List.NoDup (map (fun p => (row + p.1, col + p.2)) box_offsets).
Proof.
  apply Finite.Injective_map_NoDup_in.
  - intros [i j] [i' j'] _ _ [= Hi Hj]. f_equal; lia.
  - apply NoDup_ListNoDup, (bool_decide_unpack _). by vm_compute.
Qed.

(** What [fillDiagonalBox] writes: the shuffled digits, row by row, into
    the box with corner [(row, col)]; nothing else changes. *)
Lemma fill_box_cell (numbers : list Z) b row col r c :
  wf b -> 0 <= row <= 6 -> 0 <= col <= 6 -> in_range r c ->
  (fill_cells numbers row col box_offsets b 0)@[r, c] =
  if decide (row <= r < row + 3 /\ col <= c < col + 3)
  then nth (Z.to_nat ((r - row) * 3 + (c - col))) numbers 0 else b@[r, c].
Proof.
  intros Hwf Hrow Hcol Hrc.
  assert (Hin : forall p, In p box_offsets -> in_range (row + p.1) (col + p.2)).
  { intros p Hp%elem_box_offsets. unfold in_range. lia. }
  case_decide as Hbox.
  - pose proof (box_offsets_nth (r - row) (c - col) ltac:(lia) ltac:(lia)) as Hnth.
    pose proof (fill_cells_at numbers row col box_offsets b 0 (Z.to_nat ((r - row) * 3 + (c - col)))
      Hwf Hin (NoDup_box_shift row col) ltac:(unfold box_offsets; simpl; lia)) as H.
    rewrite Hnth in H. cbn [fst snd] in H.
    replace (row + (r - row)) with r in H by lia. replace (col + (c - col)) with c in H by lia.
    done.
  - apply fill_cells_other; [done|done|done|]. intros p Hp%elem_box_offsets [= <- <-]. lia.
Qed.

(** ** The diagonal boxes *)

(** A grid whose only filled cells are the three diagonal boxes, box [k]
    holding the digits [N k] row by row, is valid when each [N k] is a
    permutation of the digits. *)
Lemma diagonal_valid (d : board) (N : Z -> list Z) :
  wf d -> (forall k, 0 <= k < 3 -> Permutation (N k) digits) ->
  (forall r c, in_range r c ->
     d@[r, c] = if decide (r / 3 = c / 3)
                then nth (Z.to_nat ((r mod 3) * 3 + c mod 3)) (N (r / 3)) 0 else 0) ->
  valid d.
Proof.
  intros Hwf HN Hd.
  assert (Hlen : forall k, 0 <= k < 3 -> length (N k) = 9%nat)
    by (intros k Hk; by rewrite (Permutation_length (HN k Hk))).
  split; [done|split].
  - intros r c Hrc. rewrite Hd by done. case_decide; [|lia].
    unfold in_range in Hrc. assert (Hk : 0 <= r / 3 < 3) by zdiv.
    assert (Hi : Nat.lt (Z.to_nat ((r mod 3) * 3 + c mod 3)) (length (N (r / 3))))
      by (rewrite Hlen by done; zdiv).
    pose proof (nth_In _ 0 Hi) as Hx. apply (Permutation_in _ (HN _ Hk)), elem_digits in Hx.
    lia.
  - intros r c r' c' Hrc Hrc' Hne Hunit Hnz Heq.
    rewrite (Hd r c Hrc), (Hd r' c' Hrc') in Heq. rewrite (Hd r c Hrc) in Hnz.
    unfold in_range, same_unit in *.
    revert Hnz Heq. destruct (decide (r / 3 = c / 3)) as [D|D]; [|done].
    destruct (decide (r' / 3 = c' / 3)) as [D'|D']; [|intros; congruence]. intros Hnz Heq.
    assert (Hk : r / 3 = r' / 3) by (destruct Hunit as [<-|[<-|[? ?]]]; lia).
    assert (Hk3 : 0 <= r / 3 < 3) by zdiv.
    rewrite <- Hk in Heq.
    pose proof (Permutation_NoDup (Permutation_sym (HN _ Hk3)) NoDup_digits) as Hnd.
    apply (proj1 (NoDup_nth (N (r / 3)) 0)) in Heq; [|done|rewrite Hlen by done; zdiv..].
    apply Hne. f_equal; zdiv.
Qed.

Section Diagonal.

Context {G : Type} `{RandomSource G}.

(** The three shuffles [generateComplete] draws, in order. *)
Definition diagonal_numbers (g : G) : list (list Z) :=
  let '(n0, g1) := shuffle digits g in
  let '(n1, g2) := shuffle digits g1 in
  let '(n2, _) := shuffle digits g2 in [n0; n1; n2].

Lemma fillDiagonal_unfold b g :
  fillDiagonal b g =
  let '(n0, g1) := shuffle digits g in
  let '(n1, g2) := shuffle digits g1 in
  let '(n2, g3) := shuffle digits g2 in
  (fill_cells n2 6 6 box_offsets
     (fill_cells n1 3 3 box_offsets (fill_cells n0 0 0 box_offsets b 0) 0) 0, g3).
Proof.
  unfold fillDiagonal, fillDiagonalBox. change (upto 3) with [0; 1; 2]. cbn [fold_left].
  destruct (shuffle digits g) as [n0 g1]. destruct (shuffle digits g1) as [n1 g2].
  destruct (shuffle digits g2) as [n2 g3]. reflexivity.
Qed.

Lemma fillDiagonal_cell g r c :
  in_range r c ->
  (fillDiagonal new_board g).1@[r, c] =
  if decide (r / 3 = c / 3)
  then nth (Z.to_nat ((r mod 3) * 3 + c mod 3)) (nth (Z.to_nat (r / 3)) (diagonal_numbers g) []) 0
  else 0.
Proof.
  intros Hrc. rewrite fillDiagonal_unfold. unfold diagonal_numbers.
  destruct (shuffle digits g) as [n0 g1]. destruct (shuffle digits g1) as [n1 g2].
  destruct (shuffle digits g2) as [n2 g3]. cbn [fst].
  pose proof wf_new_board.
  rewrite !fill_box_cell by (auto using wf_fill_cells; lia).
  rewrite new_board_cell by done. unfold in_range in Hrc.
  assert (Hr3 : r / 3 = 0 \/ r / 3 = 1 \/ r / 3 = 2) by zdiv.
  assert (Hc3 : c / 3 = 0 \/ c / 3 = 1 \/ c / 3 = 2) by zdiv.
  destruct Hr3 as [Hr3|[Hr3|Hr3]]; destruct Hc3 as [Hc3|[Hc3|Hc3]]; rewrite ?Hr3, ?Hc3;
  repeat (case_decide; try (exfalso; zdiv)); cbn -[Z.to_nat]; try reflexivity.
  all: f_equal; f_equal; zdiv.
Qed.

Lemma wf_fillDiagonal b g : wf b -> wf (fillDiagonal b g).1.
Proof.
  intros Hwf. rewrite fillDiagonal_unfold.
  destruct (shuffle digits g) as [n0 g1]. destruct (shuffle digits g1) as [n1 g2].
  destruct (shuffle digits g2) as [n2 g3]. cbn [fst]. auto using wf_fill_cells.
Qed.

End Diagonal.

Section Laws.

Context {G : Type} `{RandomSourceLaws G}.

Lemma diagonal_numbers_perm g k :
  0 <= k < 3 -> Permutation (nth (Z.to_nat k) (diagonal_numbers g) []) digits.
Proof.
  intros Hk. unfold diagonal_numbers.
  pose proof (shuffle_perm digits g) as P0.
  destruct (shuffle digits g) as [n0 g1]. pose proof (shuffle_perm digits g1) as P1.
  destruct (shuffle digits g1) as [n1 g2]. pose proof (shuffle_perm digits g2) as P2.
  destruct (shuffle digits g2) as [n2 g3]. cbn [fst] in *.
  assert (k = 0 \/ k = 1 \/ k = 2) as [-> | [-> | -> ] ] by lia; done.
Qed.

(** C17: the three diagonal boxes [generateComplete] fills first form a
    valid grid, whatever the shuffles return. *)
Theorem fillDiagonal_valid g : valid (fillDiagonal new_board g).1.
Proof.
  apply (diagonal_valid _ (fun k => nth (Z.to_nat k) (diagonal_numbers g) [])).
  - apply wf_fillDiagonal, wf_new_board.
  - apply diagonal_numbers_perm.
  - apply fillDiagonal_cell.
Qed.

End Laws.

(** ** Complete grids *)

Section Complete.

Context {G : Type} `{RandomSourceLaws G}.

Lemma generateComplete_solution n g b g' :
  generateComplete n g = Some (b, g') -> valid b /\ complete b.
Proof.
  revert g. induction n as [|n IH]; intros g E; [done|]. cbn [generateComplete] in E.
  pose proof (fillDiagonal_valid g) as Hd.
  destruct (fillDiagonal new_board g) as [d g1]. cbn [fst] in Hd.
  destruct (solve d) as [[|] b'] eqn:Es; [|eauto].
  injection E as <- <-. destruct (proj1 (solve_spec d Hd) b' Es) as (? & ? & _). done.
Qed.

(** C14: every row, column and box of a grid [generateComplete] returns
    holds each digit 1..9 once. *)
Theorem generateComplete_units n g b g' :
  generateComplete n g = Some (b, g') ->
  (forall row, 0 <= row < 9 -> Permutation (map (fun p => b@[p.1, p.2]) (getRowCells row)) digits) /\
  (forall col, 0 <= col < 9 -> Permutation (map (fun p => b@[p.1, p.2]) (getColumnCells col)) digits) /\
  (forall br bc, 0 <= br < 3 -> 0 <= bc < 3 ->
     Permutation (map (fun p => b@[p.1, p.2]) (getBoxCells br bc)) digits).
Proof.
  intros E. destruct (generateComplete_solution n g b g' E). by apply units_permutation.
Qed.

(** C35: when the diagonal boxes drawn by the first attempt can be
    completed, [generateComplete] returns after that attempt. *)
Theorem generateComplete_first_attempt n g :
  (exists s, solution_of s (fillDiagonal new_board g).1) ->
  exists b, generateComplete (S n) g = Some (b, (fillDiagonal new_board g).2).
Proof.
  intros Hs. pose proof (fillDiagonal_valid g) as Hd. cbn [generateComplete].
  destruct (fillDiagonal new_board g) as [d g1]. cbn [fst snd] in *.
  pose proof (proj2 (solve_spec d Hd) Hs) as Hok.
  destruct (solve d) as [ok b']. cbn in Hok. subst ok. by exists b'.
Qed.

End Complete.

(** ** Carving the puzzle *)

(** [s] is the one and only solution of [p]. *)
Definition unique_solution (s p : board) : Prop :=
  solution_of s p /\ forall s', solution_of s' p -> s' = s.

Lemma unique_solution_complete s : valid s -> complete s -> unique_solution s s.
Proof.
  intros Hs Hc. pose proof Hs as [Hwf _]. split; [split; [done|split; [done|by split]]|].
  intros s' (_ & _ & Hext). by apply extends_complete in Hext.
Qed.

Lemma remove_loop_unique ps b s k removed :
  valid b -> unique_solution s b -> (forall p, In p ps -> in_range p.1 p.2) ->
  valid (remove_loop ps b k removed).1 /\ unique_solution s (remove_loop ps b k removed).1.
Proof.
  revert b removed. induction ps as [|[r c] ps IH]; intros b removed Hb Hu Hps; [done|].
  cbn [remove_loop]. assert (Hrc : in_range r c) by (apply (Hps (r, c)); by left).
  assert (Hps' : forall p, In p ps -> in_range p.1 p.2) by (intros; apply Hps; by right).
  destruct (removed >=? k); [done|].
  pose proof Hb as [Hwf _]. destruct Hu as [(Hs & Hcs & Hext) Huniq].
  assert (Hb1 : valid (set_cell b r c 0)) by (by apply valid_set_cell_zero).
  assert (Hs1 : solution_of s (set_cell b r c 0))
    by (split; [done|split; [done|by apply extends_set_cell_zero]]).
  destruct (hasUniqueSolution (set_cell b r c 0)) eqn:Hu1.
  - apply IH; [done| |done]. unfold hasUniqueSolution in Hu1. apply Z.eqb_eq in Hu1.
    apply unique_iff_count in Hu1 as (s1 & Hs1' & Hu1); [|done].
    split; [done|]. intros s' Hs'. by rewrite (Hu1 s' Hs'), (Hu1 s Hs1).
  - unfold getValue. rewrite (proj2 (inb_true_iff r c) Hrc).
    rewrite set_cell_set_cell, set_cell_id by done. apply IH; [done| |done].
    split; [by split|done].
Qed.

Lemma remove_loop_count ps b k removed :
  wf b -> List.NoDup ps -> (forall p, In p ps -> in_range p.1 p.2) ->
  (forall p, In p ps -> b@[p.1, p.2] <> 0) -> 0 <= removed <= k ->
  (count_empty (remove_loop ps b k removed).1 + Z.to_nat removed =
   count_empty b + Z.to_nat (remove_loop ps b k removed).2)%nat /\
  removed <= (remove_loop ps b k removed).2 <= k.
Proof.
  revert b removed. induction ps as [|[r c] ps IH]; intros b removed Hwf Hnd Hps Hnz Hk;
    cbn [remove_loop fst snd]; [split; [done|lia]|].
  inversion Hnd as [|? ? Hnotin Hnd']; subst.
  assert (Hrc : in_range r c) by (apply (Hps (r, c)); by left).
  assert (Hps' : forall p, In p ps -> in_range p.1 p.2) by (intros; apply Hps; by right).
  destruct (Z.geb_spec removed k); [cbn; split; [done|lia]|].
  assert (Hcell : b@[r, c] <> 0) by (apply (Hnz (r, c)); by left).
  assert (Hcount : count_empty (set_cell b r c 0) = S (count_empty b)).
  { rewrite (count_empty_set_cell (set_cell b r c 0) r c (b@[r, c])) by
      (auto with sudoku; by rewrite cell_set_cell_eq).
    by rewrite set_cell_set_cell, set_cell_id. }
  destruct (hasUniqueSolution (set_cell b r c 0)).
  - assert (Hnz1 : forall p, In p ps -> (set_cell b r c 0)@[p.1, p.2] <> 0).
    { intros [r' c'] Hp. assert ((r, c) <> (r', c')) by (intros [= <- <-]; by apply Hnotin).
      rewrite cell_set_cell_ne by (done || apply (Hps' (r', c') Hp)). apply Hnz. by right. }
    destruct (IH (set_cell b r c 0) (removed + 1) ltac:(auto with sudoku) Hnd' Hps' Hnz1
      ltac:(lia)) as [Hc Hb].
    split; [|lia]. rewrite Z2Nat.inj_add in Hc by lia. lia.
  - unfold getValue. rewrite (proj2 (inb_true_iff r c) Hrc).
    rewrite set_cell_set_cell, set_cell_id by done.
    apply IH; auto. intros p Hp. apply Hnz. by right.
Qed.

Section Carve.

Context {G : Type} `{RandomSourceLaws G}.

(** [removeCells] runs the carving loop over a duplicate-free list of
    cells: the shuffle of all 81 positions. *)
Lemma removeCells_loop s k g :
  exists ps, List.NoDup ps /\ (forall p, In p ps -> in_range p.1 p.2) /\
    (removeCells s k g).1 = (remove_loop ps s k 0).1.
Proof.
  unfold removeCells. pose proof (shuffle_perm positions g) as P.
  destruct (shuffle positions g) as [ps g']. cbn [fst] in *. exists ps. split; [|split].
  - apply (Permutation_NoDup (Permutation_sym P)), NoDup_positions.
  - intros [r c] Hp. apply elem_positions, (Permutation_in _ P), Hp.
  - done.
Qed.

(** C13: carving a complete valid grid keeps it the one and only solution:
    the puzzle is valid, [hasUniqueSolution] holds of it, and its solution
    is the grid it was carved from. *)
Theorem removeCells_unique s k g :
  valid s -> complete s ->
  let p := (removeCells s k g).1 in
  valid p /\ hasUniqueSolution p = true /\ unique_solution s p.
Proof.
  intros Hs Hc. destruct (removeCells_loop s k g) as (ps & _ & Hps & ->).
  destruct (remove_loop_unique ps s s k 0 Hs (unique_solution_complete s Hs Hc) Hps)
    as [Hp Hu].
  split; [done|split; [|done]]. unfold hasUniqueSolution. apply Z.eqb_eq.
  apply unique_iff_count; [done|]. exists s. done.
Qed.

(** C18: carving empties at most [cellsToRemove] cells of a complete grid. *)
Theorem removeCells_bound s k g :
  valid s -> complete s -> 0 <= k ->
  (count_empty (removeCells s k g).1 <= Z.to_nat k)%nat.
Proof.
  intros [Hwf _] Hc Hk. destruct (removeCells_loop s k g) as (ps & Hnd & Hps & ->).
  destruct (remove_loop_count ps s k 0 Hwf Hnd Hps) as [Hcount Hle];
    [intros p Hp; apply Hc, Hps, Hp|lia|].
  rewrite (count_empty_complete s Hc) in Hcount. cbn in Hcount. lia.
Qed.

(** A generated puzzle is a valid grid. *)
Lemma generatePuzzle_valid n d g p g' : generatePuzzle n d g = Some (p, g') -> valid p.
Proof.
  unfold generatePuzzle. destruct (generateComplete n g) as [[b g1]|] eqn:E; [|done].
  intros [= Hp]. apply (f_equal fst) in Hp. cbn [fst] in Hp. subst p.
  destruct (generateComplete_solution n g b g1 E) as [Hb Hc].
  destruct (removeCells_loop b (cellsToRemove d) g1) as (ps & _ & Hps & ->).
  exact (proj1 (remove_loop_unique ps b b _ 0 Hb (unique_solution_complete b Hb Hc) Hps)).
Qed.

(** C4: a generated puzzle is valid, [hasUniqueSolution] holds of it, it
    has at most 40, 50 or 60 empty cells for [EASY], [MEDIUM] and [HARD],
    and [solve] turns it back into the complete grid it was carved from. *)
Theorem generatePuzzle_spec n d g p g' :
  generatePuzzle n d g = Some (p, g') ->
  exists b g1, generateComplete n g = Some (b, g1) /\
    valid p /\ hasUniqueSolution p = true /\
    (count_empty p <= Z.to_nat (cellsToRemove d))%nat /\ solve p = (true, b).
Proof.
  unfold generatePuzzle. destruct (generateComplete n g) as [[b g1]|] eqn:E; [|done].
  intros [= Hp]. apply (f_equal fst) in Hp. cbn [fst] in Hp. exists b, g1. split; [done|].
  destruct (generateComplete_solution n g b g1 E) as [Hb Hc]. pose proof Hb as [Hwf _].
  destruct (removeCells_loop b (cellsToRemove d) g1) as (ps & Hnd & Hps & Hloop).
  rewrite Hloop in Hp. subst p.
  destruct (remove_loop_unique ps b b (cellsToRemove d) 0 Hb
    (unique_solution_complete b Hb Hc) Hps) as [Hp [Hs Hu]].
  destruct (remove_loop_count ps b (cellsToRemove d) 0 Hwf Hnd Hps) as [Hcount Hle];
    [intros q Hq; apply Hc, Hps, Hq|destruct d; cbn; lia|].
  rewrite (count_empty_complete b Hc) in Hcount.
  split; [done|split; [|split; [cbn in Hcount; lia|by apply solve_unique]]].
  unfold hasUniqueSolution. apply Z.eqb_eq, unique_iff_count; [done|]. by exists b.
Qed.

End Carve.

(** ** A deterministic random source *)

(** Rotation by the state, which then advances: a permutation, so it obeys
    the law of [RandomSource]. *)
#[export] Instance rotate_source : RandomSource nat := {
  shuffle A l g := (drop (g mod length l) l ++ take (g mod length l) l, S g);
  seed s := Z.to_nat s
}.


#[export] Instance rotate_source_laws : RandomSourceLaws nat.
Proof.
  constructor. intros A l g. cbn [shuffle rotate_source fst].
  rewrite Permutation_app_comm. by rewrite take_drop.
Qed.

(** ** Concrete runs with the rotating source *)

(** The complete grid [generateComplete] builds from state 5. *)
Definition sampleComplete : board :=
  match generateComplete 1 5%nat with Some (b, _) => b | None => new_board end.

Lemma fillDiagonal_valid_witness : valid (fillDiagonal new_board 0%nat).1.
Proof. apply fillDiagonal_valid. Defined.

Lemma generateComplete_units_witness :
  Permutation (map (fun p => sampleComplete@[p.1, p.2]) (getBoxCells 1 2)) digits.
Proof.
  destruct (generateComplete 1 5%nat) as [[b g']|] eqn:E;
    [|exfalso; revert E; vm_compute; discriminate].
  unfold sampleComplete. rewrite E.
  apply (generateComplete_units 1 5%nat b g' E); lia.
Defined.

Lemma generateComplete_first_attempt_witness :
  exists b, generateComplete 1 5%nat = Some (b, (fillDiagonal new_board 5%nat).2).
Proof. apply generateComplete_first_attempt. exists sampleComplete. by_compute. Defined.

Lemma removeCells_unique_witness :
  let p := (removeCells sampleComplete 40 6%nat).1 in
  valid p /\ hasUniqueSolution p = true /\ unique_solution sampleComplete p.
Proof. apply removeCells_unique; by_compute. Defined.

Lemma removeCells_bound_witness :
  (count_empty (removeCells sampleComplete 50 6%nat).1 <= 50)%nat.
Proof. apply (removeCells_bound sampleComplete 50 6%nat); [by_compute|by_compute|lia]. Defined.

Lemma generatePuzzle_spec_witness :
  match generatePuzzle 1 EASY 5%nat with
  | Some (p, _) => hasUniqueSolution p = true /\ (count_empty p <= 40)%nat
  | None => False
  end.
Proof.
  destruct (generatePuzzle 1 EASY 5%nat) as [[p g']|] eqn:E;
    [|exfalso; revert E; vm_compute; discriminate].
  destruct (generatePuzzle_spec 1 EASY 5%nat p g' E) as (b & g1 & _ & _ & Hu & Hc & _).
  split; [exact Hu|exact Hc].
Defined.

End Generator.
