(* ===== verification/Stream.v ===== *)
(** * Stream: the C++ stream operations the program relies on

    The sources read integers and words with [operator>>] on [std::cin]
    and on an [std::ifstream], skip the rest of a line with
    [std::cin.ignore(max, '\n')], and write integers with [operator<<].
    These are library code, not code of the repository; this file models
    them from the C++ standard, as far as the program depends on them:

    - a stream is the list of its remaining characters;
    - [extract_int] is [operator>>(int&)]: skip white space (the sentry),
      an optional sign, then the longest run of decimal digits
      ([std::num_get]).  On success it returns the value and the rest.  On
      failure it returns what the C++11 library stores into the target:
      nothing when the stream ends before a character is read, [0] when no
      digit follows, [INT_MAX] or [INT_MIN] on overflow, and where the
      stream stopped (after the white space, sign and digits it consumed);
    - [extract_word] is [operator>>(std::string&)];
    - [ignore_line] is [ignore(numeric_limits<streamsize>::max(), '\n')];
    - [print_int] is [operator<<(int)]: the decimal digits with a leading
      [-] for a negative value.

    The digits go through the Standard Library's [Decimal.uint], so the
    round trip [extract_int (print_int n ++ rest)] rests on
    [DecimalN.Unsigned.of_to]. *)

From S2P Require Import Prelude.
From Stdlib Require Export Ascii.
From Stdlib Require Import Decimal DecimalN.

Module Stream.

Abbreviation stream := (list ascii).

#[export] Instance ascii_eq_dec : EqDecision ascii := Ascii.ascii_dec.

(** The white space of the classic locale: space, [\t], [\n], [\v], [\f],
    [\r]. *)
Definition is_space (a : ascii) : bool :=
  let n := nat_of_ascii a in (n =? 32)%nat || ((9 <=? n) && (n <=? 13))%nat.

Fixpoint skip_ws (s : stream) : stream :=
  match s with
  | a :: s' => if is_space a then skip_ws s' else s
  | [] => []
  end.

(** One decimal digit, as a constructor of [Decimal.uint]. *)
Definition digit_of (a : ascii) : option (uint -> uint) :=
  match a with
  | "0" => Some D0 | "1" => Some D1 | "2" => Some D2 | "3" => Some D3
  | "4" => Some D4 | "5" => Some D5 | "6" => Some D6 | "7" => Some D7
  | "8" => Some D8 | "9" => Some D9
  | _ => None
  end%char.

(** The longest run of digits at the front of the stream. *)
Fixpoint read_digits (s : stream) : uint * stream :=
  match s with
  | a :: s' =>
      match digit_of a with
      | Some d => let '(u, rest) := read_digits s' in (d u, rest)
      | None => (Nil, s)
      end
  | [] => (Nil, [])
  end.

Definition INT_MIN : Z := - 2 ^ 31.
Definition INT_MAX : Z := 2 ^ 31 - 1.

Definition in_int (v : Z) : Prop := INT_MIN <= v <= INT_MAX.

#[export] Instance in_int_dec v : Decision (in_int v).
Proof. unfold in_int. apply _. Defined.

(** The result of [stream >> x] for an [int x]: on failure, what is
    stored into [x] and where the stream stopped. *)
Inductive extraction :=
| Extracted (v : Z) (rest : stream)
| Failed (stored : option Z) (rest : stream).

Definition extract_int (s : stream) : extraction :=
  match skip_ws s with
  | [] => Failed None []
  | s1 =>
      let '(neg, s2) :=
        match s1 with
        | "-"%char :: s' => (true, s')
        | "+"%char :: s' => (false, s')
        | _ => (false, s1)
        end in
      match read_digits s2 with
      | (Nil, _) => Failed (Some 0) s2
      | (u, rest) =>
          let n := Z.of_N (N.of_uint u) in
          let v := if neg then - n else n in
          if bool_decide (in_int v) then Extracted v rest
          else Failed (Some (if neg then INT_MIN else INT_MAX)) rest
      end
  end.

(** The characters up to the next white space. *)
Fixpoint split_word (s : stream) : stream * stream :=
  match s with
  | a :: s' => if is_space a then ([], s) else let '(w, rest) := split_word s' in (a :: w, rest)
  | [] => ([], [])
  end.

(** [stream >> s] for a [std::string s]: [None] when only white space is
    left. *)
Definition extract_word (s : stream) : option (stream * stream) :=
  match skip_ws s with
  | [] => None
  | s1 => Some (split_word s1)
  end.

(** [ignore(max, '\n')]: drop up to and including the next newline. *)
Fixpoint ignore_line (s : stream) : stream :=
  match s with
  | a :: s' => if (nat_of_ascii a =? 10)%nat then s' else ignore_line s'
  | [] => []
  end.

Fixpoint chars_of_uint (u : uint) : stream :=
  match u with
  | Nil => []
  | D0 u => "0"%char :: chars_of_uint u | D1 u => "1"%char :: chars_of_uint u
  | D2 u => "2"%char :: chars_of_uint u | D3 u => "3"%char :: chars_of_uint u
  | D4 u => "4"%char :: chars_of_uint u | D5 u => "5"%char :: chars_of_uint u
  | D6 u => "6"%char :: chars_of_uint u | D7 u => "7"%char :: chars_of_uint u
  | D8 u => "8"%char :: chars_of_uint u | D9 u => "9"%char :: chars_of_uint u
  end.

(** [stream << v] for an [int v]. *)
Definition print_int (v : Z) : stream :=
  match v with
  | Zneg p => "-"%char :: chars_of_uint (N.to_uint (Npos p))
  | _ => chars_of_uint (N.to_uint (Z.to_N v))
  end.

Definition space : ascii := " "%char.
Definition newline : ascii := "010"%char.


(** ** Round trip of [<<] and [>>] on [int] *)

(** The rest of the stream stops a run of digits. *)
Definition stops (rest : stream) : Prop :=
  match rest with
  | [] => True
  | a :: _ => digit_of a = None
  end.

Lemma stops_space rest : stops (space :: rest).
Proof. done. Qed.

Lemma stops_newline rest : stops (newline :: rest).
Proof. done. Qed.

#[export] Hint Resolve stops_space stops_newline : sudoku.

Lemma read_digits_app u rest :
  stops rest -> read_digits (chars_of_uint u ++ rest) = (u, rest).
Proof.
  intros Hr. induction u; simpl; try (rewrite IHu; reflexivity).
  destruct rest as [|a rest]; [done|]. cbn in Hr. cbn. by rewrite Hr.
Qed.

Lemma to_uint_nonnil (n : N) : N.to_uint n <> Nil.
Proof.
  intros E. pose proof (Unsigned.of_to n) as H. rewrite E in H. cbn in H.
  subst n. discriminate.
Qed.

(** [>>] on a run of digits, and on a minus sign and a run of digits. *)
Lemma extract_uint u rest :
  u <> Nil -> stops rest ->
  extract_int (chars_of_uint u ++ rest) =
  if bool_decide (in_int (Z.of_N (N.of_uint u))) then Extracted (Z.of_N (N.of_uint u)) rest
  else Failed (Some INT_MAX) rest.
Proof.
  intros Hu Hr. destruct u; [done|..]; unfold extract_int; simpl;
    rewrite (read_digits_app _ _ Hr); reflexivity.
Qed.

Lemma extract_neg_uint u rest :
  u <> Nil -> stops rest ->
  extract_int ("-"%char :: chars_of_uint u ++ rest) =
  if bool_decide (in_int (- Z.of_N (N.of_uint u))) then Extracted (- Z.of_N (N.of_uint u)) rest
  else Failed (Some INT_MIN) rest.
Proof.
  intros Hu Hr. destruct u; [done|..]; unfold extract_int; simpl;
    rewrite (read_digits_app _ _ Hr); reflexivity.
Qed.

(** [>>] reads back what [<<] wrote, when a separator follows. *)
Lemma extract_print_int v rest :
  in_int v -> stops rest -> extract_int (print_int v ++ rest) = Extracted v rest.
Proof.
  intros Hv Hr. destruct v as [|p|p]; cbn [print_int Datatypes.app Z.to_N].
  - rewrite extract_uint by (done || apply to_uint_nonnil). done.
  - rewrite extract_uint by (done || apply to_uint_nonnil).
    rewrite Unsigned.of_to, bool_decide_true by done. done.
  - rewrite extract_neg_uint by (done || apply to_uint_nonnil).
    rewrite Unsigned.of_to, bool_decide_true by done. done.
Qed.


(** White space is skipped by [>>] and stops a run of digits. *)
Lemma extract_int_space a s : is_space a = true -> extract_int (a :: s) = extract_int s.
Proof. intros H. unfold extract_int. cbn [skip_ws]. by rewrite H. Qed.

Lemma stops_of_space a s : is_space a = true -> stops (a :: s).
Proof. destruct a as [[] [] [] [] [] [] [] []]; done. Qed.

#[export] Hint Resolve stops_of_space : sudoku.


(** A stream of white space only has nothing left for [>>]. *)
Lemma skip_ws_spaces s : Forall (fun a => is_space a = true) s -> skip_ws s = [].
Proof. induction 1 as [|a s Ha _ IH]; [done|]. cbn. by rewrite Ha. Qed.


(** A character that is neither white space, a sign nor a digit: [>>]
    stores [0] and stops in front of it. *)
Lemma extract_int_nondigit a t :
  is_space a = false -> digit_of a = None -> a <> "-"%char -> a <> "+"%char ->
  extract_int (a :: t) = Failed (Some 0) (a :: t).
Proof.
  intros Hs Hd Hm Hp. unfold extract_int. cbn [skip_ws]. rewrite Hs.
  destruct a as [[] [] [] [] [] [] [] []]; cbn in *; congruence.
Qed.

End Stream.
