(* ===== verification/BoardIO.v ===== *)
(** * BoardIO: [loadFromFile], [saveToFile] and [printBoard]

    Module [BoardIO] models the stream methods of
    src/Sudoku/src/SudokuBoard.cpp over the stream model of [Stream].  A
    file is the list of its characters; [None] stands for a file the
    [std::ifstream] cannot open.  [loadFromFile] is the double loop of
    [file >> board[i][j]] in row-major order with its early [return false],
    and writes into the board as it goes, including the value the C++11
    library stores on a failed extraction.  [saveToFile] returns the text it
    writes, [printBoard] the text it sends to [std::cout].

    The theorems: saving a board and loading the file gives the board back
    (round trip); a file that ends early fails after writing the cells it
    had; a file of 81 integers is accepted whatever the integers are, so a
    load can leave a board that is not a Sudoku grid. *)

From S2P Require Import Prelude Board Stream.
From Stdlib Require Import String.
Import Board Stream.

Module BoardIO.

(** The loop [for (i ...) for (j ...) if (!(file >> board[i][j])) return false;]. *)
Fixpoint load_cells (ps : list (Z * Z)) (b : board) (s : stream) : bool * board :=
  match ps with
  | [] => (true, b)
  | (i, j) :: rest =>
      match extract_int s with
      | Extracted v s' => load_cells rest (set_cell b i j v) s'
      | Failed (Some v) _ => (false, set_cell b i j v)
      | Failed None _ => (false, b)
      end
  end.

(** [SudokuBoard::loadFromFile]. *)
Definition loadFromFile (b : board) (file : option stream) : bool * board :=
  match file with
  | None => (false, b)
  | Some s => load_cells positions b s
  end.

(** [file << board[i][j]; if (j != BOARD_SIZE - 1) file << " ";] *)
Definition save_cell (b : board) (i j : Z) : stream :=
  print_int (b@[i, j]) ++ (if j =? BOARD_SIZE - 1 then [] else [space]).

(** One row and its [file << "\n"]. *)
Definition save_row (b : board) (i : Z) : stream :=
  flat_map (save_cell b i) (upto BOARD_SIZE) ++ [newline].

Definition save_text (b : board) : stream := flat_map (save_row b) (upto BOARD_SIZE).

(** [SudokuBoard::saveToFile]: [writable] says whether the [std::ofstream]
    opens; the result carries the text written to the file. *)
Definition saveToFile (b : board) (writable : bool) : bool * option stream :=
  if writable then (true, Some (save_text b)) else (false, None).

(** The rule line of [printBoard]. *)
Definition rule_line : stream := repeat "-"%char 37 ++ [newline].

(** One cell of [printBoard]: [". "] or the value and a space, then
    ["| "] after the third and sixth columns. *)
Definition print_cell (b : board) (i j : Z) : stream :=
  (if b@[i, j] =? 0 then ["."%char; space] else print_int (b@[i, j]) ++ [space]) ++
  (if (j mod BOX_SIZE =? BOX_SIZE - 1) && negb (j =? BOARD_SIZE - 1) then ["|"%char; space]
   else []).

Definition print_row (b : board) (i : Z) : stream :=
  flat_map (print_cell b i) (upto BOARD_SIZE) ++ [newline] ++
  (if (i mod BOX_SIZE =? BOX_SIZE - 1) && negb (i =? BOARD_SIZE - 1) then rule_line else []).

(** [SudokuBoard::printBoard]: the text sent to [std::cout]. *)
Definition printBoard (b : board) : stream :=
  rule_line ++ flat_map (print_row b) (upto BOARD_SIZE) ++ rule_line.


(** ** Loading what was saved *)

Lemma load_cells_space ps b a s :
  is_space a = true -> load_cells ps b (a :: s) = load_cells ps b s.
Proof. intros H. destruct ps as [|[i j] ps]; cbn [load_cells]; [done|]. by rewrite extract_int_space. Qed.

(** Loading a text of printed integers, each followed by white space,
    writes them in order. *)
Lemma load_printed ps b (f : Z * Z -> Z) (sep : Z * Z -> ascii) :
  (forall p, In p ps -> in_int (f p) /\ is_space (sep p) = true) ->
  load_cells ps b (flat_map (fun p => print_int (f p) ++ [sep p]) ps) =
  (true, fold_left (fun b p => set_cell b p.1 p.2 (f p)) ps b).
Proof.
  revert b. induction ps as [|[i j] ps IH]; intros b Hps; [done|].
  destruct (Hps (i, j) ltac:(by left)) as [Hv Hs].
  cbn [flat_map load_cells fold_left fst snd]. rewrite <- app_assoc.
  rewrite extract_print_int by (done || apply stops_of_space, Hs). cbn [app].
  rewrite load_cells_space by done. apply IH. intros p Hp. apply Hps. by right.
Qed.

(** The text of [saveToFile], cell by cell in row-major order. *)
Definition save_sep (p : Z * Z) : ascii := if p.2 =? BOARD_SIZE - 1 then newline else space.

Lemma save_text_cells b :
  save_text b = flat_map (fun p => print_int (b@[p.1, p.2]) ++ [save_sep p]) positions.
Proof.
  unfold save_text, save_row, save_cell, save_sep, positions, BOARD_SIZE. simpl.
  rewrite <- ?app_assoc. reflexivity.
Qed.


(** Loading the text of [save_text b]. *)
Lemma load_save_text b b0 :
  wf b -> wf b0 -> Forall (fun p => in_int (b@[p.1, p.2])) positions ->
  loadFromFile b0 (Some (save_text b)) = (true, b).
Proof.
  intros Hwf Hwf0 Hint. cbn [loadFromFile]. rewrite save_text_cells.
  rewrite (load_printed positions b0 (fun p => b@[p.1, p.2]) save_sep).
  - destruct (set_cells_spec (fun p => b@[p.1, p.2]) positions b0 Hwf0
      ltac:(intros ??; apply elem_positions)) as [Hwf' Hcell].
    f_equal. apply board_ext; [done|done|]. intros r c Hrc.
    rewrite Hcell by done. by rewrite decide_True by (by apply elem_positions).
  - intros p Hp. split; [by apply (proj1 (Forall_forall _ _) Hint)|].
    unfold save_sep. by destruct (_ =? _).
Qed.

(** C11: Round trip: loading the text [saveToFile] writes gives back the saved
    board, over any 9x9 board, when every cell holds a 32-bit [int]. *)
Theorem save_load_roundtrip b b0 :
  wf b -> wf b0 -> Forall (fun p => in_int (b@[p.1, p.2])) positions ->
  loadFromFile b0 (saveToFile b true).2 = (true, b).
Proof. apply load_save_text. Qed.

(** The text of a list of integers, each followed by a space. *)
Definition ints_text (vs : list Z) : stream := flat_map (fun v => print_int v ++ [space]) vs.

(** Writing a list of values into the cells of [ps], in order. *)
Definition write_cells (ps : list (Z * Z)) (vs : list Z) (b : board) : board :=
  fold_left (fun b '(p, v) => set_cell b p.1 p.2 v) (combine ps vs) b.

(** Loading a file that starts with printed integers writes them into the
    first cells and goes on with the rest of the file at the next cell. *)
Lemma load_prefix ps b vs tail :
  Forall in_int vs -> (List.length vs <= List.length ps)%nat ->
  load_cells ps b (ints_text vs ++ tail) =
  load_cells (drop (List.length vs) ps) (write_cells ps vs b) tail.
Proof.
  unfold ints_text, write_cells. revert ps b.
  induction vs as [|v vs IH]; intros ps b Hvs Hlen; [by destruct ps|].
  destruct ps as [|[i j] ps]; [cbn in Hlen; lia|].
  inversion_clear Hvs as [|? ? Hv Hvs']. cbn [flat_map load_cells combine fold_left fst snd].
  rewrite <- !app_assoc, extract_print_int by (done || apply stops_space).
  cbn [app]. rewrite load_cells_space by done. apply IH; [done|cbn in Hlen; lia].
Qed.

Lemma length_positions : List.length positions = 81%nat.
Proof. reflexivity. Qed.

(** C30: A file with fewer than 81 integers makes [loadFromFile] fail after it
    has written the integers it read into the first cells, in row-major
    order, leaving the other cells as they were. *)
Theorem loadFromFile_short b vs :
  Forall in_int vs -> (List.length vs < 81)%nat ->
  loadFromFile b (Some (ints_text vs)) = (false, write_cells positions vs b).
Proof.
  intros Hvs Hlen. cbn [loadFromFile]. rewrite <- (app_nil_r (ints_text vs)).
  rewrite load_prefix by (done || rewrite length_positions; lia).
  rewrite (drop_nth _ _ (0, 0)) by (rewrite length_positions; lia).
  by destruct (nth _ _ _).
Qed.

(** C31: [loadFromFile] accepts any 81 integers: whatever the values (42,
    -7, a digit repeated in a row) it returns true and the board holds
    exactly the integers of the file, in row-major order. *)
Theorem loadFromFile_accepts_any_ints b vs :
  Forall in_int vs -> List.length vs = 81%nat ->
  loadFromFile b (Some (ints_text vs)) = (true, write_cells positions vs b).
Proof.
  intros Hvs Hlen. cbn [loadFromFile]. rewrite <- (app_nil_r (ints_text vs)).
  rewrite load_prefix by (done || rewrite length_positions; lia).
  rewrite Hlen. reflexivity.
Qed.

(** C34: A token that is not a number fails the load, and the C++11 library
    stores [0] into the cell being read: after the integers before it, the
    cell they did not reach gets 0 and [loadFromFile] returns false. *)
Theorem loadFromFile_garbled b vs a t :
  Forall in_int vs -> (List.length vs < 81)%nat ->
  is_space a = false -> digit_of a = None -> a <> "-"%char -> a <> "+"%char ->
  loadFromFile b (Some (ints_text vs ++ a :: t)) =
  (false, set_cell (write_cells positions vs b)
            (nth (List.length vs) positions (0, 0)).1 (nth (List.length vs) positions (0, 0)).2 0).
Proof.
  intros Hvs Hlen Hs Hd Hm Hp. cbn [loadFromFile].
  rewrite load_prefix by (done || rewrite length_positions; lia).
  rewrite (drop_nth _ _ (0, 0)) by (rewrite length_positions; lia).
  destruct (nth _ _ _) as [i j]. cbn [load_cells]. by rewrite extract_int_nondigit.
Qed.

(** 81 copies of [42]. *)
Definition file_of_42s : stream := ints_text (map (fun _ => 42) positions).

(** A load that succeeds can leave a board that is not a Sudoku grid. *)
Example file_of_42s_invalid :
  (loadFromFile new_board (Some file_of_42s)).1 = true /\
  ~ valid (loadFromFile new_board (Some file_of_42s)).2.
Proof.
  split; [vm_compute; reflexivity|].
  apply (bool_decide_eq_false _). vm_compute. reflexivity.
Qed.

(** The console rendering of [printBoard] for the default puzzle: empty
    cells as dots, a bar after the third and sixth column, a rule after the
    third and sixth row. *)
Example printBoard_defaultPuzzle :
  string_of_list_ascii (printBoard defaultPuzzle) =
"-------------------------------------
5 3 . | . 7 . | . . . 
6 . . | 1 9 5 | . . . 
. 9 8 | . . . | . 6 . 
-------------------------------------
8 . . | . 6 . | . . 3 
4 . . | 8 . 3 | . . 1 
7 . . | . 2 . | . . 6 
-------------------------------------
. 6 . | . . . | 2 8 . 
. . . | 4 1 9 | . . 5 
. . . | . 8 . | . 7 9 
-------------------------------------
"%string.
Proof. vm_compute. reflexivity. Qed.

(** ** Concrete runs *)

Lemma save_load_roundtrip_witness :
  loadFromFile new_board (saveToFile defaultPuzzle true).2 = (true, defaultPuzzle).
Proof. apply save_load_roundtrip; by_compute. Defined.

Lemma loadFromFile_short_witness :
  loadFromFile new_board (Some (ints_text [5; 3])) = (false, write_cells positions [5; 3] new_board).
Proof.
  apply loadFromFile_short; [repeat constructor; unfold in_int, INT_MIN, INT_MAX; lia|cbn; lia].
Defined.

Lemma loadFromFile_accepts_any_ints_witness :
  loadFromFile new_board (Some file_of_42s) =
  (true, write_cells positions (map (fun _ => 42) positions) new_board).
Proof. apply loadFromFile_accepts_any_ints; [by_compute|reflexivity]. Defined.

Lemma loadFromFile_garbled_witness :
  loadFromFile defaultPuzzle (Some (ints_text [7] ++ ["x"%char])) =
  (false, set_cell (write_cells positions [7] defaultPuzzle) 0 1 0).
Proof.
  apply (loadFromFile_garbled defaultPuzzle [7] "x"%char []);
    [repeat constructor; unfold in_int, INT_MIN, INT_MAX; lia|cbn; lia|reflexivity|reflexivity|
     discriminate|discriminate].
Defined.

End BoardIO.
