(* ===== verification/Advanced.v ===== *)
(** * Advanced: [SudokuAdvancedChecks], the constraint-propagation solver

    Module [Advanced] models src/SudokuAdvancedChecks.cpp.  Every technique
    takes the board by reference and returns whether it made progress; the
    model returns the pair [(progress, board)], like [Board.setValue].  The
    loops of [nakedSingles] and [hiddenSingles] are [fold_left]s over the
    cells, digits and units in the order of the C++ loops, and every write
    goes to the board of the current iteration, as in place.  The pairs and
    locked-candidates techniques are the placeholders of the source.  The
    [while] loop of [solveWithAdvancedTechniques] is [advanced_loop] with
    fuel [ADVANCED_FUEL = 83]: each pass that reports progress fills at least
    one of the at most 81 empty cells, so 81 productive passes, one last
    pass and the final test are enough ([advanced_loop_terminates]).

    [placements] is the step relation of the solver: a sequence of writes,
    each of a digit that [isValidMove] accepts on the board just before it.
    The theorems show that every pass and the whole solver are such a
    sequence (the spec's soundness), that a pass keeps exactly the solutions
    of a valid grid, that progress fills a cell, that the loop ends, and
    that a second run changes nothing. *)

From S2P Require Import Prelude Board Search Solver.
Import Board Search Solver.

Module Advanced.

(** [SudokuAdvancedChecks::getPossibleValues]: the [std::set] of the
    digits [isValidMove] accepts, in increasing order. *)
Definition getPossibleValues (b : board) (row col : Z) : list Z :=
  if isEmpty b row col then List.filter (fun value => isValidMove b row col value) digits
  else [].

(** One cell of the loops of [nakedSingles]. *)
Definition naked_cell (st : bool * board) (p : Z * Z) : bool * board :=
  let '(progress, b) := st in
  let '(row, col) := p in
  if isEmpty b row col then
    match getPossibleValues b row col with
    | [value] => (true, set_cell b row col value)
    | _ => (progress, b)
    end
  else (progress, b).

(** [SudokuAdvancedChecks::nakedSingles]. *)
Definition nakedSingles (b : board) : bool * board :=
  fold_left naked_cell positions (false, b).

(** The vectors [possibleCols], [possibleRows], [possibleCells] of
    [hiddenSingles]: the cells of a unit that are empty and accept
    [value]. *)
Definition hidden_candidates (b : board) (cells : list (Z * Z)) (value : Z) : list (Z * Z) :=
  List.filter (fun p => isEmpty b p.1 p.2 && isValidMove b p.1 p.2 value) cells.

(** One digit of a unit in [hiddenSingles]: a single candidate cell gets
    the digit. *)
Definition hidden_value (cells : list (Z * Z)) (st : bool * board) (value : Z) : bool * board :=
  let '(progress, b) := st in
  match hidden_candidates b cells value with
  | [(r, c)] => (true, set_cell b r c value)
  | _ => (progress, b)
  end.

(** The loop [for (value = 1; value <= 9; value++)] over one unit. *)
Definition hidden_unit (st : bool * board) (cells : list (Z * Z)) : bool * board :=
  fold_left (hidden_value cells) digits st.

(** The units in the order of the loops: rows, columns, boxes by
    [boxRow] then [boxCol]. *)
Definition row_units : list (list (Z * Z)) := map getRowCells (upto 9).
Definition column_units : list (list (Z * Z)) := map getColumnCells (upto 9).
Definition box_units : list (list (Z * Z)) :=
  flat_map (fun boxRow => map (getBoxCells boxRow) (upto 3)) (upto 3).

(** [SudokuAdvancedChecks::hiddenSingles]. *)
Definition hiddenSingles (b : board) : bool * board :=
  let st := fold_left hidden_unit row_units (false, b) in
  let st := fold_left hidden_unit column_units st in
  fold_left hidden_unit box_units st.

(** The placeholders of the source: no change, no progress. *)
Definition processNakedPairsInUnit (b : board) (cells : list (Z * Z)) : bool * board :=
  (false, b).
Definition processHiddenPairsInUnit (b : board) (cells : list (Z * Z)) : bool * board :=
  (false, b).
Definition processLockedCandidatesInBox (b : board) (boxRow boxCol : Z) : bool * board :=
  (false, b).
Definition hiddenPairs (b : board) : bool * board := (false, b).
Definition isOnlyPossibilityInUnit (b : board) (row col value : Z) : bool := false.

(** [if (process...(board, ...)) progress = true;] *)
Definition or_progress (st : bool * board) (r : bool * board) : bool * board :=
  (st.1 || r.1, r.2).

(** [SudokuAdvancedChecks::nakedPairs]. *)
Definition nakedPairs (b : board) : bool * board :=
  fold_left (fun st cells => or_progress st (processNakedPairsInUnit st.2 cells))
    (row_units ++ column_units ++ box_units) (false, b).

(** [SudokuAdvancedChecks::lockedCandidates]. *)
Definition lockedCandidates (b : board) : bool * board :=
  fold_left (fun st p => or_progress st (processLockedCandidatesInBox st.2 p.1 p.2))
    (list_prod (upto 3) (upto 3)) (false, b).

(** [SudokuAdvancedChecks::applyAllTechniques]: [progress |= ...] runs
    every technique. *)
Definition applyAllTechniques (b : board) : bool * board :=
  let '(p1, b1) := nakedSingles b in
  let '(p2, b2) := hiddenSingles b1 in
  let '(p3, b3) := nakedPairs b2 in
  let '(p4, b4) := lockedCandidates b3 in
  (p1 || p2 || p3 || p4, b4).

(** The loop [while (progress && !board.isFull())]. *)
Fixpoint advanced_loop (fuel : nat) (progress : bool) (b : board) : option board :=
  match fuel with
  | O => None
  | S f =>
      if progress && negb (isFull b) then
        let '(p, b') := applyAllTechniques b in advanced_loop f p b'
      else Some b
  end.

Definition ADVANCED_FUEL : nat := 83.

(** [SudokuAdvancedChecks::solveWithAdvancedTechniques]. *)
Definition solveWithAdvancedTechniques (b : board) : bool * board :=
  match advanced_loop ADVANCED_FUEL true b with
  | Some b' => (isFull b', b')
  | None => (false, b)
  end.


(** ** The step relation: a sequence of checked writes *)

(** [placements b b']: [b'] is [b] after writes of digits, each accepted by
    [isValidMove] on the board just before it. *)
Inductive placements : board -> board -> Prop :=
| placements_refl b : placements b b
| placements_step b r c v b' :
    isValidMove b r c v = true -> placements (set_cell b r c v) b' -> placements b b'.

#[export] Hint Constructors placements : sudoku.

Lemma placements_trans b1 b2 b3 : placements b1 b2 -> placements b2 b3 -> placements b1 b3.
Proof. induction 1; eauto with sudoku. Qed.

Lemma placements_snoc b b' r c v :
  placements b b' -> isValidMove b' r c v = true -> placements b (set_cell b' r c v).
Proof. intros H Hv. apply (placements_trans _ b'); eauto with sudoku. Qed.

Lemma placements_wf b b' : wf b -> placements b b' -> wf b'.
Proof. intros Hwf H. induction H; auto with sudoku. Qed.

Lemma placements_valid b b' : valid b -> placements b b' -> valid b'.
Proof. intros Hb H. induction H; auto using valid_set_cell. Qed.

Lemma placements_count b b' : wf b -> placements b b' -> (count_empty b' <= count_empty b)%nat.
Proof.
  intros Hwf H. induction H as [|b r c v b' Hm H IH]; [done|].
  destruct (isValidMove_empty _ _ _ _ Hm) as (Hrc & Hv & Hz).
  rewrite (count_empty_set_cell b r c v) by (done || lia). specialize (IH ltac:(auto with sudoku)). lia.
Qed.

(** Every solution of the result is a solution of the start. *)
Lemma placements_solution b b' s : wf b -> placements b b' -> solution_of s b' -> solution_of s b.
Proof.
  intros Hwf H. induction H as [|b r c v b' Hm H IH]; [done|]. intros Hs.
  destruct (isValidMove_empty _ _ _ _ Hm) as (Hrc & _ & Hz).
  destruct (IH ltac:(auto with sudoku) Hs) as (Hsv & Hsc & Hext).
  do 2 (split; [done|]). by apply (extends_set_cell s b r c v).
Qed.

(** ** Forced digits *)

Lemma getPossibleValues_iff b r c v :
  In v (getPossibleValues b r c) <-> isValidMove b r c v = true.
Proof.
  unfold getPossibleValues. destruct (isEmpty b r c) eqn:He.
  - rewrite filter_In, elem_digits. split; [tauto|]. intros Hm.
    split; [apply isValidMove_empty in Hm; lia|done].
  - split; [intros []|]. intros (Hrc & _ & Hz)%isValidMove_empty.
    assert (isEmpty b r c = true) by (by apply isEmpty_iff). congruence.
Qed.

Lemma elem_hidden_candidates b cells v p :
  In p (hidden_candidates b cells v) <-> In p cells /\ isValidMove b p.1 p.2 v = true.
Proof.
  unfold hidden_candidates. rewrite filter_In, andb_true_iff. split; [tauto|].
  intros [Hp Hm]. split; [done|split; [|done]]. apply isEmpty_iff.
  apply isValidMove_empty in Hm. tauto.
Qed.

(** A naked single is the digit every solution puts in the cell. *)
Lemma naked_forced b r c v s :
  valid b -> getPossibleValues b r c = [v] -> solution_of s b -> s@[r, c] = v.
Proof.
  intros Hb E Hs. assert (Hin : In v (getPossibleValues b r c)) by (rewrite E; by left).
  apply getPossibleValues_iff, isValidMove_empty in Hin as (Hrc & _ & Hz).
  destruct (solution_move s b r c Hb Hs Hrc Hz) as [Hm _].
  apply getPossibleValues_iff in Hm. rewrite E in Hm. by destruct Hm as [->|[]].
Qed.

(** A hidden single of a unit is where every solution puts the digit: the
    digit occurs in the unit of the solution, not in a filled cell (the
    candidate would conflict with it), so in an empty cell that accepts it,
    the only candidate. *)
Lemma hidden_forced b cells v r c s :
  valid b -> is_unit cells -> 1 <= v <= 9 ->
  hidden_candidates b cells v = [(r, c)] -> solution_of s b -> s@[r, c] = v.
Proof.
  intros Hb Hu Hv E Hs. pose proof Hs as (Hsv & Hsc & _ & Hext).
  assert (Hrc : In (r, c) (hidden_candidates b cells v)) by (rewrite E; by left).
  apply elem_hidden_candidates in Hrc as [Hin Hm].
  pose proof (is_unit_permutation s cells Hsv Hsc Hu) as P.
  assert (Hq : In v (map (fun p => s@[p.1, p.2]) cells))
    by (apply (Permutation_in _ (Permutation_sym P)), elem_digits; lia).
  apply in_map_iff in Hq as ([r' c'] & Hsq & Hq). cbn in Hsq.
  destruct Hu as (_ & _ & Hrange & Hsame). pose proof (Hrange _ Hq) as Hrc'. cbn in Hrc'.
  destruct (decide (b@[r', c'] = 0)) as [Hz|Hnz].
  - destruct (solution_move s b r' c' Hb Hs Hrc' Hz) as [Hm' _]. rewrite Hsq in Hm'.
    assert (H : In (r', c') (hidden_candidates b cells v)) by (by apply elem_hidden_candidates).
    rewrite E in H. by destruct H as [[= -> ->]|[]].
  - rewrite Hext in Hsq by done. apply isValidMove_iff in Hm as (_ & _ & _ & Hpeers).
    exfalso. exact (Hpeers r' c' Hrc' (Hsame (r, c) (r', c') Hin Hq) Hsq).
Qed.

(** ** The invariant of a pass *)

(** The state [(progress, b)] of a pass started on [b0]: [b] is reached by
    checked writes, progress means a cell was filled and no progress means
    no change, and every solution of a valid [b0] is one of [b]. *)
Definition pass_ok (b0 : board) (st : bool * board) : Prop :=
  placements b0 st.2 /\
  (if st.1 then (count_empty st.2 < count_empty b0)%nat else st.2 = b0) /\
  (valid b0 -> forall s, solution_of s b0 -> solution_of s st.2).

Lemma pass_ok_start b0 : pass_ok b0 (false, b0).
Proof. split; [constructor|split; [done|auto]]. Qed.

(** Writing a checked digit that every solution has there. *)
Lemma pass_ok_place b0 p b r c v :
  wf b0 -> pass_ok b0 (p, b) -> isValidMove b r c v = true ->
  (valid b -> forall s, solution_of s b -> s@[r, c] = v) ->
  pass_ok b0 (true, set_cell b r c v).
Proof.
  intros Hwf (Hpl & _ & Hsol) Hm Hforced. cbn in *.
  destruct (isValidMove_empty _ _ _ _ Hm) as (Hrc & Hv & Hz).
  pose proof (placements_wf b0 b Hwf Hpl) as Hwfb.
  split; [by apply placements_snoc|split].
  - pose proof (count_empty_set_cell b r c v Hwfb Hrc Hz ltac:(lia)).
    pose proof (placements_count b0 b Hwf Hpl). cbn. lia.
  - intros Hb0 s Hs. pose proof (placements_valid b0 b Hb0 Hpl) as Hb.
    specialize (Hsol Hb0 s Hs). rewrite <- (Hforced Hb s Hsol).
    apply (solution_move s b r c Hb Hsol Hrc Hz).
Qed.

(** Two passes in a row. *)
Lemma pass_ok_seq b0 p1 b1 p2 b2 :
  wf b0 -> pass_ok b0 (p1, b1) -> pass_ok b1 (p2, b2) -> pass_ok b0 (p1 || p2, b2).
Proof.
  intros Hwf (Hpl1 & Hc1 & Hs1) (Hpl2 & Hc2 & Hs2). cbn in *.
  split; [by apply (placements_trans _ b1)|split].
  - pose proof (placements_count b1 b2 (placements_wf b0 b1 Hwf Hpl1) Hpl2).
    destruct p1, p2; cbn in *; subst; lia || done.
  - intros Hb0 s Hs. apply Hs2; [by apply (placements_valid b0)|by apply Hs1].
Qed.


(** ** The techniques *)

Lemma naked_cell_ok b0 st p : wf b0 -> pass_ok b0 st -> pass_ok b0 (naked_cell st p).
Proof.
  intros Hwf Hst. destruct st as [progress b], p as [row col]. cbn [naked_cell].
  destruct (isEmpty b row col); [|done].
  destruct (getPossibleValues b row col) as [|v [|w l]] eqn:E; try done.
  apply (pass_ok_place b0 progress); [done|done| |].
  - apply getPossibleValues_iff. rewrite E. by left.
  - intros Hb s Hs. by apply (naked_forced b).
Qed.

Lemma nakedSingles_ok b : wf b -> pass_ok b (nakedSingles b).
Proof.
  intros Hwf. unfold nakedSingles. apply fold_left_invariant; [|apply pass_ok_start].
  intros st p _. by apply naked_cell_ok.
Qed.

Lemma hidden_unit_ok b0 st cells :
  wf b0 -> is_unit cells -> pass_ok b0 st -> pass_ok b0 (hidden_unit st cells).
Proof.
  intros Hwf Hu. unfold hidden_unit. apply fold_left_invariant.
  intros [progress b] v Hv%elem_digits Hst.
  cbn [hidden_value]. destruct (hidden_candidates b cells v) as [|[r c] [|q l]] eqn:E; try done.
  apply (pass_ok_place b0 progress); [done|done| |].
  - apply (elem_hidden_candidates b cells v (r, c)). rewrite E. by left.
  - intros Hb s Hs. by apply (hidden_forced b cells v r c s).
Qed.

Lemma units_are_units cells :
  In cells (row_units ++ column_units ++ box_units) -> is_unit cells.
Proof.
  unfold row_units, column_units, box_units. rewrite !in_app_iff, !in_map_iff, in_flat_map.
  intros [(row & <- & ?%elem_upto)|[(col & <- & ?%elem_upto)|(br & ?%elem_upto & Hb)]].
  - by apply unit_getRowCells.
  - by apply unit_getColumnCells.
  - apply in_map_iff in Hb as (bc & <- & ?%elem_upto). by apply unit_getBoxCells.
Qed.

Lemma hidden_pass_ok units b0 st :
  wf b0 -> (forall cells, In cells units -> is_unit cells) -> pass_ok b0 st ->
  pass_ok b0 (fold_left hidden_unit units st).
Proof.
  intros Hwf Hu. apply fold_left_invariant. intros st' cells Hc. by apply hidden_unit_ok, Hu.
Qed.

Lemma hiddenSingles_ok b : wf b -> pass_ok b (hiddenSingles b).
Proof.
  intros Hwf. unfold hiddenSingles.
  repeat apply hidden_pass_ok; try done; try apply pass_ok_start;
    intros cells Hc; apply units_are_units; rewrite !in_app_iff; tauto.
Qed.

(** The placeholders never write and never report progress. *)
Lemma nakedPairs_noop b : nakedPairs b = (false, b).
Proof.
  unfold nakedPairs. apply (fold_left_invariant (fun st => st = (false, b))); [|done].
  intros st x _ Hst. rewrite Hst. reflexivity.
Qed.

Lemma lockedCandidates_noop b : lockedCandidates b = (false, b).
Proof.
  unfold lockedCandidates. apply (fold_left_invariant (fun st => st = (false, b))); [|done].
  intros st x _ Hst. rewrite Hst. reflexivity.
Qed.

Lemma applyAllTechniques_ok b : wf b -> pass_ok b (applyAllTechniques b).
Proof.
  intros Hwf. unfold applyAllTechniques.
  pose proof (nakedSingles_ok b Hwf) as H1. destruct (nakedSingles b) as [p1 b1].
  pose proof (hiddenSingles_ok b1 (placements_wf _ _ Hwf (proj1 H1))) as H2.
  destruct (hiddenSingles b1) as [p2 b2].
  rewrite nakedPairs_noop. cbv beta iota. rewrite lockedCandidates_noop, !orb_false_r.
  by apply (pass_ok_seq b p1 b1).
Qed.

(** ** The loop *)

Lemma advanced_loop_ok fuel p b b0 b' :
  wf b0 -> placements b0 b -> (valid b0 -> forall s, solution_of s b0 -> solution_of s b) ->
  advanced_loop fuel p b = Some b' ->
  placements b0 b' /\ (valid b0 -> forall s, solution_of s b0 -> solution_of s b').
Proof.
  revert p b. induction fuel as [|f IH]; intros p b Hwf Hpl Hsol E; [done|].
  cbn [advanced_loop] in E. destruct (p && negb (isFull b)); [|by injection E as <-].
  pose proof (applyAllTechniques_ok b (placements_wf _ _ Hwf Hpl)) as (Hpl' & _ & Hsol').
  destruct (applyAllTechniques b) as [p' b'']. apply (IH p' b''); [done| | |done].
  - by apply (placements_trans _ b).
  - intros Hb0 s Hs. apply Hsol'; [by apply (placements_valid b0)|by apply Hsol].
Qed.

(** The measure of the loop: the empty cells, plus one while a pass is
    due. *)
Lemma advanced_loop_some fuel (p : bool) b :
  wf b -> (count_empty b + (if p then 1 else 0) < fuel)%nat ->
  exists b', advanced_loop fuel p b = Some b'.
Proof.
  revert p b. induction fuel as [|f IH]; intros p b Hwf Hf; [lia|]. cbn [advanced_loop].
  destruct (p && negb (isFull b)) eqn:Hp; [|eauto].
  pose proof (applyAllTechniques_ok b Hwf) as (Hpl & Hc & _).
  destruct (applyAllTechniques b) as [p' b'']. cbn in Hpl, Hc.
  apply IH; [by apply (placements_wf b)|].
  apply andb_prop in Hp as [-> _]. destruct p'; subst; lia.
Qed.

(** The loop stops on a full board or on a board where a pass makes no
    progress. *)
Lemma advanced_loop_stop fuel p b b' :
  wf b -> (p = false -> applyAllTechniques b = (false, b)) ->
  advanced_loop fuel p b = Some b' ->
  isFull b' = true \/ applyAllTechniques b' = (false, b').
Proof.
  revert p b. induction fuel as [|f IH]; intros p b Hwf Hp E; [done|].
  cbn [advanced_loop] in E. destruct (p && negb (isFull b)) eqn:Hq.
  - pose proof (applyAllTechniques_ok b Hwf) as (Hpl & Hc & _).
    destruct (applyAllTechniques b) as [p' b''] eqn:Ea. cbn in Hpl, Hc.
    apply (IH p' b''); [by apply (placements_wf b)| |done].
    intros ->. subst b''. done.
  - injection E as <-. destruct p; [left|right; by apply Hp].
    cbn in Hq. by apply negb_false_iff in Hq.
Qed.

Lemma solveWith_unfold b :
  wf b -> exists b', advanced_loop ADVANCED_FUEL true b = Some b' /\
    solveWithAdvancedTechniques b = (isFull b', b').
Proof.
  intros Hwf. destruct (advanced_loop_some ADVANCED_FUEL true b Hwf) as [b' E].
  - pose proof (count_empty_le b). unfold ADVANCED_FUEL. lia.
  - exists b'. unfold solveWithAdvancedTechniques. by rewrite E.
Qed.

Lemma solveWith_ok b :
  wf b -> placements b (solveWithAdvancedTechniques b).2 /\
    (valid b -> forall s, solution_of s b -> solution_of s (solveWithAdvancedTechniques b).2).
Proof.
  intros Hwf. destruct (solveWith_unfold b Hwf) as (b' & E & ->).
  exact (advanced_loop_ok ADVANCED_FUEL true b b b' Hwf (placements_refl b) (fun _ s Hs => Hs) E).
Qed.

(** ** Soundness, solutions and termination *)

(** C5: Soundness of the constraint-propagation solver: the board it leaves
    is the input after a sequence of writes, each of a digit that
    [isValidMove] accepts on the board just before the write. *)
Theorem solveWithAdvancedTechniques_sound b :
  wf b -> placements b (solveWithAdvancedTechniques b).2.
Proof. intros Hwf. apply (solveWith_ok b Hwf). Qed.

(** C10: When the constraint-propagation solver reports success on a valid
    grid, the board is a solution of the input, and the only one. *)
Theorem solveWithAdvancedTechniques_correct b b' :
  valid b -> solveWithAdvancedTechniques b = (true, b') ->
  solution_of b' b /\ forall s, solution_of s b -> s = b'.
Proof.
  intros Hb E. pose proof Hb as [Hwf _]. destruct (solveWith_ok b Hwf) as [Hpl Hsol].
  rewrite E in Hpl, Hsol. cbn in Hpl, Hsol.
  destruct (solveWith_unfold b Hwf) as (b'' & _ & E'). rewrite E' in E.
  injection E as Hfull ->. apply isFull_iff in Hfull.
  assert (Hb' : valid b') by (by apply (placements_valid b)).
  assert (Hs : solution_of b' b).
  { apply (placements_solution b b'); [done|done|]. split; [done|split; [done|]].
    apply extends_refl, Hb'. }
  split; [done|]. intros s Hs'. apply (extends_complete s b'); [apply Hb'|done|].
  apply (Hsol Hb s Hs').
Qed.

(** C9: One pass of the techniques on a valid grid keeps it valid and keeps
    exactly its solutions: the singles it places are forced. *)
Theorem applyAllTechniques_solutions b :
  valid b -> valid (applyAllTechniques b).2 /\
    forall s, solution_of s b <-> solution_of s (applyAllTechniques b).2.
Proof.
  intros Hb. pose proof Hb as [Hwf _]. destruct (applyAllTechniques_ok b Hwf) as (Hpl & _ & Hsol).
  split; [by apply (placements_valid b)|]. intros s. split; [by apply Hsol|].
  by apply (placements_solution b).
Qed.

(** C22: A pass that reports progress fills at least one empty cell; a pass
    that reports none leaves the board as it was. *)
Theorem applyAllTechniques_progress b :
  wf b ->
  if (applyAllTechniques b).1 then (count_empty (applyAllTechniques b).2 < count_empty b)%nat
  else (applyAllTechniques b).2 = b.
Proof. intros Hwf. apply (applyAllTechniques_ok b Hwf). Qed.

(** C21: The [while] loop of [solveWithAdvancedTechniques] ends within its
    83 rounds of fuel on every 9x9 board. *)
Theorem solveWithAdvancedTechniques_terminates b :
  wf b -> exists b', advanced_loop ADVANCED_FUEL true b = Some b'.
Proof.
  intros Hwf. apply advanced_loop_some; [done|]. pose proof (count_empty_le b).
  unfold ADVANCED_FUEL. lia.
Qed.

(** C16: Running [solveWithAdvancedTechniques] a second time on its result
    changes nothing and gives the same answer. *)
Theorem solveWithAdvancedTechniques_idempotent b :
  wf b ->
  solveWithAdvancedTechniques (solveWithAdvancedTechniques b).2 = solveWithAdvancedTechniques b.
Proof.
  intros Hwf. destruct (solveWith_unfold b Hwf) as (b' & E & ->). cbn [snd].
  unfold solveWithAdvancedTechniques. unfold ADVANCED_FUEL at 1. cbn [advanced_loop].
  destruct (advanced_loop_stop ADVANCED_FUEL true b b' Hwf) as [Hf|Ha];
    [discriminate|exact E| |].
  - rewrite Hf. cbn. by rewrite Hf.
  - destruct (isFull b') eqn:Hf; [cbn; by rewrite Hf|]. rewrite Ha. cbn. by rewrite Hf.
Qed.

(** C36: [getPossibleValues] lists in increasing order exactly the digits
    that [isValidMove] accepts in the cell. *)
Theorem getPossibleValues_spec b r c :
  StronglySorted Z.lt (getPossibleValues b r c) /\
  forall v, In v (getPossibleValues b r c) <-> isValidMove b r c v = true.
Proof.
  split; [|apply getPossibleValues_iff]. unfold getPossibleValues.
  destruct (isEmpty b r c); [|constructor]. apply StronglySorted_filter.
  repeat constructor; lia.
Qed.


(** ** Concrete runs *)

(** The default puzzle of the game is solved by naked and hidden singles
    alone, to the grid the backtracking solver finds. *)
Example solveWithAdvancedTechniques_defaultPuzzle :
  solveWithAdvancedTechniques defaultPuzzle = (true, defaultSolution).
Proof. vm_compute. reflexivity. Qed.

(** On the empty grid every cell has nine candidates and every digit
    nine places: no technique applies, and the solver stops at once with
    the grid incomplete. *)
Example solveWithAdvancedTechniques_empty_grid :
  solveWithAdvancedTechniques new_board = (false, new_board).
Proof. vm_compute. reflexivity. Qed.

Lemma solveWithAdvancedTechniques_sound_witness :
  placements defaultPuzzle (solveWithAdvancedTechniques defaultPuzzle).2.
Proof. apply solveWithAdvancedTechniques_sound. by_compute. Defined.

Lemma solveWithAdvancedTechniques_correct_witness :
  solution_of defaultSolution defaultPuzzle /\
  forall s, solution_of s defaultPuzzle -> s = defaultSolution.
Proof.
  apply solveWithAdvancedTechniques_correct; [by_compute|vm_compute; reflexivity].
Defined.

Lemma applyAllTechniques_solutions_witness :
  valid (applyAllTechniques defaultPuzzle).2 /\
  forall s, solution_of s defaultPuzzle <-> solution_of s (applyAllTechniques defaultPuzzle).2.
Proof. apply applyAllTechniques_solutions. by_compute. Defined.

Lemma applyAllTechniques_progress_witness :
  if (applyAllTechniques defaultPuzzle).1
  then (count_empty (applyAllTechniques defaultPuzzle).2 < count_empty defaultPuzzle)%nat
  else (applyAllTechniques defaultPuzzle).2 = defaultPuzzle.
Proof. apply applyAllTechniques_progress. by_compute. Defined.

Lemma solveWithAdvancedTechniques_terminates_witness :
  exists b', advanced_loop ADVANCED_FUEL true defaultPuzzle = Some b'.
Proof. apply solveWithAdvancedTechniques_terminates. by_compute. Defined.

Lemma solveWithAdvancedTechniques_idempotent_witness :
  solveWithAdvancedTechniques (solveWithAdvancedTechniques new_board).2 =
  solveWithAdvancedTechniques new_board.
Proof. apply solveWithAdvancedTechniques_idempotent. by_compute. Defined.

End Advanced.
