(* ===== verification/Game.v ===== *)
(** * Game: the console game of [SudokuGame]

    Module [Game] models src/Sudoku/src/SudokuGame.cpp.  The object's fields
    [board] and [gameRunning] and the program's environment form the record
    [state]: [std::cin] as the stream of characters not read yet, [std::cout]
    as the list of messages written so far (one constructor per text of the
    source, and the rendering of [printBoard]), the files as a store of
    contents and a writable flag, and the generator's random source.  Each
    method is a function on [state]; [iteration] is one turn of the
    [while (gameRunning)] loop of [run] and [run] the loop with fuel.  The
    compile-time flags [BUILD_GENERATOR] and [BUILD_ADVANCED] are the record
    [build].  The generator's unbounded retry is given a number of attempts;
    an iteration that uses them up returns [None].

    Only the plain build compiles against src/SudokuGame.hpp, which does
    not declare [generateNewPuzzle] and [solveWithAdvancedTechniques]; the
    theorems hold for every build, the concrete runs use the plain one.

    The theorems: with files that hold saved valid boards, every iteration
    keeps the board valid and the files so (the invariant that composes all
    components);
    [enterMove] writes exactly the legal moves and never reaches its second
    rejection; the exit option ends the loop; and at the end of the input
    the loop never ends. *)

From S2P Require Import Prelude Board Search Solver Counter Generator Advanced Stream BoardIO.
From Stdlib Require Import String.
Import Board Search Solver Counter Generator Advanced Stream BoardIO.

Module Game.

(** The preprocessor flags of the build. *)
Record build := { BUILD_GENERATOR : bool; BUILD_ADVANCED : bool }.

(** [int exitOption = 5; #ifdef BUILD_GENERATOR exitOption = 6; ...]. *)
Definition exitOption (cfg : build) : Z :=
  if BUILD_ADVANCED cfg then 7 else if BUILD_GENERATOR cfg then 6 else 5.

(** What the game writes to [std::cout]. *)
Inductive message :=
| MsgWelcome                       (* "Welcome to Sudoku Game!" *)
| MsgBoard (text : stream)         (* board.printBoard() *)
| MsgMenu (gen adv : bool) (exit : Z) (* displayMenu *)
| MsgEnterPrompt                   (* "Enter row (1-9), column (1-9), and value (1-9): " *)
| MsgInvalidInput                  (* "Invalid input. Please enter three integers." *)
| MsgRowRange                      (* "Row must be between 1 and 9." *)
| MsgColRange                      (* "Column must be between 1 and 9." *)
| MsgValueRange                    (* "Value must be between 1 and 9." *)
| MsgInvalidMove                   (* "Invalid move. That cell might be occupied ..." *)
| MsgMoveAccepted                  (* "Move accepted!" *)
| MsgSolvedByPlayer                (* "Great job! The Sudoku is solved!" *)
| MsgSolving                       (* "Solving puzzle..." *)
| MsgPuzzleSolved                  (* "Puzzle solved!" *)
| MsgNoSolution                    (* "No solution found. The puzzle may be unsolvable." *)
| MsgFilenamePrompt                (* "Enter filename: " *)
| MsgLoaded                        (* "Puzzle loaded successfully!" *)
| MsgLoadFailed                    (* "Failed to load puzzle from file. ..." *)
| MsgSavePrompt                    (* "Enter filename to save puzzle to: " *)
| MsgSaved (name : stream)         (* "Puzzle saved to " << filename << "!" *)
| MsgSaveFailed                    (* "Failed to save puzzle to file." *)
| MsgThanks                        (* "Thank you for playing Sudoku!" *)
| MsgInvalidChoice                 (* "Invalid choice. Please select a valid option." *)
| MsgDifficultyMenu                (* "Select difficulty: 1) Easy 2) Medium 3) Hard Choice: " *)
| MsgInvalidDifficulty             (* "Invalid choice. Generating medium difficulty puzzle." *)
| MsgGenerating                    (* "Generating new puzzle..." *)
| MsgGenerated                     (* "New puzzle generated!" *)
| MsgAdvancedSolving               (* "Solving with advanced techniques..." *)
| MsgAdvancedSolved                (* "Puzzle solved using advanced techniques!" *)
| MsgAdvancedFailed.               (* "Advanced techniques couldn't solve ..." *)

(** The files: their contents, [None] when an [std::ifstream] cannot open
    the name, and whether an [std::ofstream] can open it. *)
Record fsys := { contents : stream -> option stream; writable : stream -> bool }.

(** The [std::ofstream] truncates and writes [text]. *)
Definition write_file (d : fsys) (name text : stream) : fsys :=
  {| contents := fun n => if decide (n = name) then Some text else contents d n;
     writable := writable d |}.

Section Game.

Context {G : Type} `{RandomSource G}.
Variable cfg : build.
Variable attempts : nat.

Record state := {
  board : Board.board;
  gameRunning : bool;
  cin : stream;
  cout : list message;
  disk : fsys;
  rng : G
}.

Definition emit (s : state) (m : message) : state :=
  {| board := board s; gameRunning := gameRunning s; cin := cin s; cout := cout s ++ [m];
     disk := disk s; rng := rng s |}.
Definition with_board (s : state) (b : Board.board) : state :=
  {| board := b; gameRunning := gameRunning s; cin := cin s; cout := cout s;
     disk := disk s; rng := rng s |}.
Definition with_cin (s : state) (i : stream) : state :=
  {| board := board s; gameRunning := gameRunning s; cin := i; cout := cout s;
     disk := disk s; rng := rng s |}.
Definition with_disk (s : state) (d : fsys) : state :=
  {| board := board s; gameRunning := gameRunning s; cin := cin s; cout := cout s;
     disk := d; rng := rng s |}.
Definition with_rng (s : state) (g : G) : state :=
  {| board := board s; gameRunning := gameRunning s; cin := cin s; cout := cout s;
     disk := disk s; rng := g |}.
Definition with_running (s : state) (r : bool) : state :=
  {| board := board s; gameRunning := r; cin := cin s; cout := cout s;
     disk := disk s; rng := rng s |}.

(** [SudokuGame::getIntegerInput] with an empty prompt: on failure
    [cin.clear()] and [cin.ignore(max, '\n')]. *)
Definition getIntegerInput (s : state) : option Z * state :=
  match extract_int (cin s) with
  | Extracted v rest => (Some v, with_cin s rest)
  | Failed _ rest => (None, with_cin s (ignore_line rest))
  end.

(** [SudokuGame::getMenuChoice]. *)
Definition getMenuChoice (s : state) : Z * state :=
  let '(r, s') := getIntegerInput s in
  match r with Some choice => (choice, s') | None => (-1, s') end.

(** [SudokuGame::isValidRange]. *)
Definition isValidRange (value min max : Z) : bool := (value >=? min) && (value <=? max).

(** [std::cin >> row >> col >> value]: the three integers, or failure at
    the first extraction that fails, with where the stream stopped. *)
Definition extract3 (i : stream) : option (Z * Z * Z) * stream :=
  match extract_int i with
  | Failed _ r => (None, r)
  | Extracted row r =>
      match extract_int r with
      | Failed _ r' => (None, r')
      | Extracted col r' =>
          match extract_int r' with
          | Failed _ r'' => (None, r'')
          | Extracted value r'' => (Some (row, col, value), r'')
          end
      end
  end.

(** The checks of [enterMove] once the three integers are read. *)
Definition enter_checked (s : state) (row col value : Z) : state :=
  if negb (isValidRange row 1 9) then emit s MsgRowRange
  else if negb (isValidRange col 1 9) then emit s MsgColRange
  else if negb (isValidRange value 1 9) then emit s MsgValueRange
  else
    let row := row - 1 in
    let col := col - 1 in
    if negb (isEmpty (board s) row col) || negb (isValidMove (board s) row col value) then
      emit s MsgInvalidMove
    else
      let '(ok, b') := setValue (board s) row col value in
      if ok then
        let s := emit (with_board s b') MsgMoveAccepted in
        if isFull b' then emit s MsgSolvedByPlayer else s
      else emit (with_board s b') MsgInvalidMove.

(** [SudokuGame::enterMove]. *)
Definition enterMove (s : state) : state :=
  let s := emit s MsgEnterPrompt in
  match extract3 (cin s) with
  | (None, rest) => emit (with_cin s (ignore_line rest)) MsgInvalidInput
  | (Some (row, col, value), rest) => enter_checked (with_cin s rest) row col value
  end.

(** [SudokuGame::solveAutomatically]. *)
Definition solveAutomatically (s : state) : state :=
  let s := emit s MsgSolving in
  let '(ok, b') := solve (board s) in
  emit (with_board s b') (if ok then MsgPuzzleSolved else MsgNoSolution).

(** [std::cin >> filename]: [None] when the input has no word left (the
    string is then empty and no file of that name opens). *)
Definition read_filename (s : state) : option stream * state :=
  match extract_word (cin s) with
  | Some (name, rest) => (Some name, with_cin s rest)
  | None => (None, with_cin s [])
  end.

(** [SudokuGame::loadPuzzleFromFile]. *)
Definition loadPuzzleFromFile (s : state) : state :=
  let s := emit s MsgFilenamePrompt in
  let '(name, s) := read_filename s in
  let file := match name with Some n => contents (disk s) n | None => None end in
  let '(ok, b') := loadFromFile (board s) file in
  emit (with_board s b') (if ok then MsgLoaded else MsgLoadFailed).

(** [SudokuGame::savePuzzleToFile]. *)
Definition savePuzzleToFile (s : state) : state :=
  let s := emit s MsgSavePrompt in
  match read_filename s with
  | (Some name, s) =>
      let '(ok, text) := saveToFile (board s) (writable (disk s) name) in
      let s := match text with Some t => with_disk s (write_file (disk s) name t) | None => s end in
      emit s (if ok then MsgSaved name else MsgSaveFailed)
  | (None, s) => emit s MsgSaveFailed
  end.

(** [SudokuGame::quit]. *)
Definition quit (s : state) : state := emit (with_running s false) MsgThanks.

(** The [switch (difficultyChoice)] of [generateNewPuzzle]. *)
Definition difficulty_of (choice : Z) : Difficulty :=
  match choice with
  | 1 => EASY
  | 2 => MEDIUM
  | 3 => HARD
  | _ => MEDIUM
  end.

(** [SudokuGame::generateNewPuzzle]; [None] when [generateComplete] has not
    succeeded within [attempts]. *)
Definition generateNewPuzzle (s : state) : option state :=
  let s := emit s MsgDifficultyMenu in
  let '(r, s) := getIntegerInput s in
  let '(choice, s) :=
    match r with
    | Some c => if (c <? 1) || (c >? 3) then (2, emit s MsgInvalidDifficulty) else (c, s)
    | None => (2, emit s MsgInvalidDifficulty)
    end in
  let s := emit s MsgGenerating in
  match generatePuzzle attempts (difficulty_of choice) (rng s) with
  | Some (p, g') => Some (emit (with_rng (with_board s p) g') MsgGenerated)
  | None => None
  end.

(** [SudokuGame::solveWithAdvancedTechniques]. *)
Definition solveWithAdvanced (s : state) : state :=
  let s := emit s MsgAdvancedSolving in
  let '(ok, b') := solveWithAdvancedTechniques (board s) in
  emit (with_board s b') (if ok then MsgAdvancedSolved else MsgAdvancedFailed).

(** [SudokuGame::displayMenu]. *)
Definition displayMenu (s : state) : state :=
  emit s (MsgMenu (BUILD_GENERATOR cfg) (BUILD_ADVANCED cfg) (exitOption cfg)).

(** The [default:] branch of the [switch]. *)
Definition other_choice (s : state) (choice : Z) : state :=
  if choice =? exitOption cfg then quit s else emit s MsgInvalidChoice.

(** The [switch (choice)] of [run]. *)
Definition dispatch (s : state) (choice : Z) : option state :=
  match choice with
  | 1 => Some (enterMove s)
  | 2 => Some (solveAutomatically s)
  | 3 => Some (loadPuzzleFromFile s)
  | 4 => Some (savePuzzleToFile s)
  | 5 => if BUILD_GENERATOR cfg then generateNewPuzzle s else Some (other_choice s choice)
  | 6 => if BUILD_ADVANCED cfg then Some (solveWithAdvanced s) else Some (other_choice s choice)
  | _ => Some (other_choice s choice)
  end.

(** One turn of [while (gameRunning)]. *)
Definition iteration (s : state) : option state :=
  let s := emit s (MsgBoard (printBoard (board s))) in
  let s := displayMenu s in
  let '(choice, s) := getMenuChoice s in
  dispatch s choice.

(** The loop; [None] when the fuel or an iteration runs out. *)
Fixpoint run_loop (fuel : nat) (s : state) : option state :=
  match fuel with
  | O => None
  | S f =>
      if gameRunning s then
        match iteration s with
        | Some s' => run_loop f s'
        | None => None
        end
      else Some s
  end.

(** [SudokuGame::SudokuGame]: a fresh board, then the default puzzle. *)
Definition new_game (input : stream) (d : fsys) (g : G) : state :=
  {| board := initializeBoard defaultPuzzle new_board; gameRunning := true; cin := input;
     cout := []; disk := d; rng := g |}.

(** [SudokuGame::run]. *)
Definition run (fuel : nat) (s : state) : option state := run_loop fuel (emit s MsgWelcome).

End Game.


(** ** Invariants of the loop *)

Section Proofs.

Context {G : Type} `{RandomSourceLaws G}.
Variable cfg : build.
Variable attempts : nat.

(** The branches of the [switch]. *)
Lemma dispatch_cases (s s' : state (G:=G)) c :
  dispatch cfg attempts s c = Some s' ->
  s' = enterMove s \/ s' = solveAutomatically s \/ s' = loadPuzzleFromFile s \/
  s' = savePuzzleToFile s \/ generateNewPuzzle attempts s = Some s' \/
  s' = solveWithAdvanced s \/ s' = other_choice cfg s c.
Proof. unfold dispatch. intros E. repeat case_match; simplify_eq; tauto. Qed.

Lemma iteration_cases (s s' : state (G:=G)) :
  iteration cfg attempts s = Some s' ->
  exists t c, board t = board s /\ disk t = disk s /\ dispatch cfg attempts t c = Some s'.
Proof.
  unfold iteration, getMenuChoice, getIntegerInput.
  destruct (extract_int _) as [v r|v r]; intros E; do 2 eexists;
    (split; [|split; [|exact E]]); reflexivity.
Qed.

(** A property of the board and the files that every branch keeps. *)
Definition kept (P : Board.board -> fsys -> Prop) : Prop :=
  forall s s' : state (G:=G), P (board s) (disk s) -> iteration cfg attempts s = Some s' ->
  P (board s') (disk s').

Lemma run_loop_kept P fuel (s s' : state (G:=G)) :
  kept P -> P (board s) (disk s) -> run_loop cfg attempts fuel s = Some s' -> P (board s') (disk s').
Proof.
  intros Hk. revert s. induction fuel as [|f IH]; intros s Hs E; [done|]. cbn [run_loop] in E.
  destruct (gameRunning s); [|by injection E as <-].
  destruct (iteration cfg attempts s) as [t|] eqn:Ei; [|done]. apply (IH t); [|done].
  by apply (Hk s t).
Qed.

Lemma setValue_valid b r c v : valid b -> valid (setValue b r c v).2.
Proof. intros Hb. unfold setValue. destruct (isValidMove b r c v) eqn:E; cbn; [by apply valid_set_cell|done]. Qed.

(** The checked move entry either leaves the board or is the write of
    [setValue]. *)
Lemma enter_checked_board (s : state (G:=G)) row col value :
  board (enter_checked s row col value) = board s \/
  board (enter_checked s row col value) = (setValue (board s) (row - 1) (col - 1) value).2.
Proof.
  unfold enter_checked. cbv zeta.
  destruct (negb (isValidRange row 1 9)); [by left|].
  destruct (negb (isValidRange col 1 9)); [by left|].
  destruct (negb (isValidRange value 1 9)); [by left|].
  destruct (_ || _); [by left|]. right.
  destruct (setValue (board s) (row - 1) (col - 1) value) as [ok b'] eqn:E.
  destruct ok; [destruct (isFull b')|]; done.
Qed.

Lemma enter_checked_disk (s : state (G:=G)) row col value :
  disk (enter_checked s row col value) = disk s.
Proof.
  unfold enter_checked. cbv zeta. repeat destruct (negb _); try done.
  destruct (_ || _); [done|]. destruct (setValue _ _ _ _) as [[] b']; [destruct (isFull b')|]; done.
Qed.

Lemma enterMove_cases (s : state (G:=G)) :
  disk (enterMove s) = disk s /\
  (board (enterMove s) = board s \/
   exists r c v, board (enterMove s) = (setValue (board s) r c v).2).
Proof.
  unfold enterMove. destruct (extract3 _) as [[[[row col] value]|] rest]; [|by split; [|left]].
  split; [by rewrite enter_checked_disk|].
  destruct (enter_checked_board (with_cin (emit s MsgEnterPrompt) rest) row col value) as [->| ->];
    [by left|right; eauto].
Qed.


(** What each branch does to the board and the files. *)
Lemma solveAutomatically_eq (s : state (G:=G)) :
  board (solveAutomatically s) = (solve (board s)).2 /\ disk (solveAutomatically s) = disk s.
Proof. unfold solveAutomatically. by destruct (solve _) as [[] b']. Qed.

Lemma loadPuzzleFromFile_eq (s : state (G:=G)) :
  disk (loadPuzzleFromFile s) = disk s /\
  exists file, (file = None \/ exists n, file = contents (disk s) n) /\
    board (loadPuzzleFromFile s) = (loadFromFile (board s) file).2.
Proof.
  unfold loadPuzzleFromFile, read_filename.
  destruct (extract_word _) as [[n rest]|]; cbv beta iota zeta;
    cbn [board disk with_cin emit with_board];
    (split; [destruct (loadFromFile _ _) as [[] b']; reflexivity|]);
    [exists (contents (disk s) n)|exists None]; (split; [eauto|]);
    destruct (loadFromFile _ _) as [[] b']; reflexivity.
Qed.

Lemma savePuzzleToFile_eq (s : state (G:=G)) :
  board (savePuzzleToFile s) = board s /\
  (disk (savePuzzleToFile s) = disk s \/
   exists n, disk (savePuzzleToFile s) = write_file (disk s) n (save_text (board s))).
Proof.
  unfold savePuzzleToFile, read_filename. destruct (extract_word _) as [[n rest]|]; [|by split; [|left]].
  unfold saveToFile. destruct (writable _ n); cbn; split; [done|right; by exists n|done|by left].
Qed.

Lemma generateNewPuzzle_eq (s s' : state (G:=G)) :
  generateNewPuzzle attempts s = Some s' ->
  disk s' = disk s /\ exists d g g', generatePuzzle attempts d g = Some (board s', g').
Proof.
  unfold generateNewPuzzle, getIntegerInput.
  destruct (extract_int _) as [v r|v r]; [destruct (_ || _)|];
    (destruct (generatePuzzle _ _ _) as [[p g']|] eqn:E; [|done]);
    intros [= <-]; split; try done; eauto.
Qed.

Lemma solveWithAdvanced_eq (s : state (G:=G)) :
  board (solveWithAdvanced s) = (solveWithAdvancedTechniques (board s)).2 /\
  disk (solveWithAdvanced s) = disk s.
Proof. unfold solveWithAdvanced. by destruct (solveWithAdvancedTechniques _) as [[] b']. Qed.

Lemma other_choice_eq (s : state (G:=G)) c :
  board (other_choice cfg s c) = board s /\ disk (other_choice cfg s c) = disk s.
Proof. unfold other_choice. by destruct (_ =? _). Qed.

(** Every branch keeps [P] when each operation on the board does and the
    files keep [P] across a save. *)
Lemma kept_of_branches (P : Board.board -> fsys -> Prop) :
  (forall b d r c v, P b d -> P (setValue b r c v).2 d) ->
  (forall b d, P b d -> P (solve b).2 d) ->
  (forall b d file, P b d -> (file = None \/ exists n, file = contents d n) ->
     P (loadFromFile b file).2 d) ->
  (forall b d n, P b d -> P b (write_file d n (save_text b))) ->
  (forall b d p g dif g', P b d -> generatePuzzle attempts dif g = Some (p, g') -> P p d) ->
  (forall b d, P b d -> P (solveWithAdvancedTechniques b).2 d) ->
  kept P.
Proof.
  intros Hset Hsolve Hload Hsave Hgen Hadv s s' Hs E.
  destruct (iteration_cases s s' E) as (t & c & Hb & Hd & Ed). rewrite <- Hb, <- Hd in Hs.
  destruct (dispatch_cases t s' c Ed) as [->|[->|[->|[->|[Eg|[->| ->]]]]]].
  - destruct (enterMove_cases t) as [-> [-> | (r & c' & v & ->)]]; auto.
  - destruct (solveAutomatically_eq t) as [-> ->]. auto.
  - destruct (loadPuzzleFromFile_eq t) as [-> (file & Hf & ->)]. auto.
  - destruct (savePuzzleToFile_eq t) as [-> [-> | [n ->]]]; auto.
  - destruct (generateNewPuzzle_eq t s' Eg) as [-> (dif & g & g' & Eg')]. eauto.
  - destruct (solveWithAdvanced_eq t) as [-> ->]. auto.
  - destruct (other_choice_eq t c) as [-> ->]. done.
Qed.


(** ** The board stays valid *)

(** Every file holds the text [saveToFile] writes for a valid board. *)
Definition disk_ok (d : fsys) : Prop :=
  forall n t, contents d n = Some t -> exists b, valid b /\ t = save_text b.

Lemma valid_ints b : valid b -> Forall (fun p => in_int (b@[p.1, p.2])) positions.
Proof.
  intros (_ & Hdig & _). apply Forall_forall. intros [r c] Hp%elem_positions.
  pose proof (Hdig r c Hp). unfold in_int, INT_MIN, INT_MAX. cbn. lia.
Qed.

Lemma kept_valid : kept (fun b d => valid b /\ disk_ok d).
Proof.
  apply kept_of_branches.
  - intros b d r c v [Hb Hd]. split; [by apply setValue_valid|done].
  - intros b d [Hb Hd]. split; [by apply solve_valid|done].
  - intros b d file [Hb Hd] [->|[n ->]]; split; try done.
    destruct (contents d n) as [t|] eqn:Et; [|done].
    destruct (Hd n t Et) as (b' & Hb' & ->).
    rewrite (load_save_text b' b) by (apply Hb' || apply Hb || by apply valid_ints). done.
  - intros b d n [Hb Hd]. split; [done|]. intros n' t. cbn. case_decide; [|by apply Hd].
    intros [= <-]. by exists b.
  - intros b d p g dif g' [_ Hd] E. split; [apply (generatePuzzle_valid _ _ _ _ _ E)|done].
  - intros b d [Hb Hd]. split; [|done]. pose proof Hb as [Hwf _].
    apply (placements_valid b); [done|apply (solveWith_ok b Hwf)].
Qed.

(** C6: The invariant that composes all the components: when every file
    holds a valid board saved by the game, a game started by the
    constructor keeps a valid board through every turn (moves, both
    solvers, loads, saves, generated puzzles), and the files stay so. *)
Theorem run_keeps_valid fuel input d (g : G) s' :
  disk_ok d -> run cfg attempts fuel (new_game input d g) = Some s' ->
  valid (board s') /\ disk_ok (disk s').
Proof.
  intros Hd E. apply (run_loop_kept _ fuel (emit (new_game input d g) MsgWelcome) s' kept_valid);
    [|exact E].
  split; [by_compute|done].
Qed.

(** ** Entering a move *)

(** What [enterMove] writes once it has read the three integers, without
    the test that [isValidMove] already makes and the branch that never
    runs. *)
Definition enter_messages (b : Board.board) (row col value : Z) : list message :=
  if negb (isValidRange row 1 9) then [MsgRowRange]
  else if negb (isValidRange col 1 9) then [MsgColRange]
  else if negb (isValidRange value 1 9) then [MsgValueRange]
  else if isValidMove b (row - 1) (col - 1) value then
    MsgMoveAccepted ::
      (if isFull (set_cell b (row - 1) (col - 1) value) then [MsgSolvedByPlayer] else [])
  else [MsgInvalidMove].

Definition move_ok (b : Board.board) (row col value : Z) : bool :=
  isValidRange row 1 9 && isValidRange col 1 9 && isValidRange value 1 9 &&
  isValidMove b (row - 1) (col - 1) value.

(** C15: After reading three integers, [enterMove] writes the digit exactly
    when the 1-based coordinates and the value are in 1..9 and the move is
    legal, and reports it; otherwise it leaves the board and says which
    check failed.  Its second "Invalid move" branch, after [setValue], is
    never taken. *)
Theorem enter_checked_spec (s : state (G:=G)) row col value :
  board (enter_checked s row col value) =
    (if move_ok (board s) row col value then set_cell (board s) (row - 1) (col - 1) value
     else board s) /\
  cout (enter_checked s row col value) = cout s ++ enter_messages (board s) row col value.
Proof.
  unfold enter_checked, move_ok, enter_messages. cbv zeta.
  destruct (isValidRange row 1 9), (isValidRange col 1 9), (isValidRange value 1 9); try done.
  destruct (isValidMove (board s) (row - 1) (col - 1) value) eqn:Hm; cbn.
  - assert (isEmpty (board s) (row - 1) (col - 1) = true)
      by (apply isEmpty_iff; apply isValidMove_empty in Hm; tauto).
    rewrite H1. cbn. unfold setValue. rewrite Hm. cbn.
    destruct (isFull _); cbn; [rewrite <- app_assoc|]; done.
  - by rewrite orb_true_r.
Qed.

(** ** The loop *)

(** C20: Liveness of the exit option: when the next input is the exit
    option's number, the loop ends after that turn, with the board as it
    was and the rest of the input unread. *)
Theorem exit_ends_game (s : state (G:=G)) rest :
  gameRunning s = true -> stops rest -> cin s = print_int (exitOption cfg) ++ rest ->
  exists s', run_loop cfg attempts 2 s = Some s' /\ gameRunning s' = false /\
    board s' = board s /\ cin s' = rest.
Proof.
  intros Hrun Hr Hcin. cbn [run_loop]. rewrite Hrun.
  unfold iteration, getMenuChoice, getIntegerInput. cbn [cin displayMenu emit].
  rewrite Hcin, extract_print_int by (done || (unfold in_int, exitOption, INT_MIN, INT_MAX;
    destruct (BUILD_ADVANCED cfg), (BUILD_GENERATOR cfg); lia)).
  destruct cfg as [[] []]; cbn; eexists; repeat split.
Qed.

(** C19: At the end of the input the game never stops: [std::cin >> choice]
    fails, the [ignore] finds no line to skip, the choice is -1, and the
    same turn repeats without end, whatever the fuel. *)
Theorem eof_loops_forever fuel (s : state (G:=G)) :
  gameRunning s = true -> Forall (fun a => is_space a = true) (cin s) ->
  run_loop cfg attempts fuel s = None.
Proof.
  revert s. induction fuel as [|f IH]; intros s Hrun Hws; [done|]. cbn [run_loop]. rewrite Hrun.
  unfold iteration, getMenuChoice, getIntegerInput, extract_int. cbn [cin displayMenu emit].
  rewrite skip_ws_spaces by done. cbn [ignore_line dispatch]. apply IH.
  - unfold other_choice. destruct (_ =? _) eqn:E; [|done]. exfalso. apply Z.eqb_eq in E.
    unfold exitOption in E. destruct (BUILD_ADVANCED cfg), (BUILD_GENERATOR cfg); lia.
  - unfold other_choice. destruct (_ =? _); constructor.
Qed.

End Proofs.


(** ** Concrete runs *)

(** The build without the optional features. *)
Definition plain_build : build := {| BUILD_GENERATOR := false; BUILD_ADVANCED := false |}.

(** No file yet; every name can be written. *)
Definition empty_disk : fsys := {| contents := fun _ => None; writable := fun _ => true |}.

(** A session: a move, the same move again, a line that is not a number,
    a column out of range, a save, a load of the saved file, a load of a
    missing file, and the exit. *)
Definition session_input : stream := list_ascii_of_string "1 1 3 4
1 1 3 4
x
1 1 10 1
4 f.txt
3 f.txt
3 nofile
5
".

(** The messages other than the board and the menu. *)
Definition replies (l : list message) : list message :=
  List.filter (fun m => match m with MsgBoard _ | MsgMenu _ _ _ => false | _ => true end) l.

(** The session above, run by the game built with both features: the
    first move is accepted, its repetition rejected, the line [x] is an
    invalid choice, the column 10 is refused, the save and the load of the
    saved file succeed, the load of a missing file fails, and [7] exits
    with the default puzzle plus the one move. *)
Example game_session :
  option_map (fun s => (replies (cout s), board s, gameRunning s))
    (run plain_build 1 12 (new_game session_input empty_disk 5%nat)) =
  Some ([MsgWelcome; MsgEnterPrompt; MsgMoveAccepted; MsgEnterPrompt; MsgInvalidMove;
         MsgInvalidChoice; MsgEnterPrompt; MsgColRange; MsgSavePrompt;
         MsgSaved (list_ascii_of_string "f.txt"); MsgFilenamePrompt; MsgLoaded;
         MsgFilenamePrompt; MsgLoadFailed; MsgThanks],
        set_cell defaultPuzzle 0 2 4, false).
Proof. vm_compute. reflexivity. Qed.

Lemma run_keeps_valid_witness :
  match run plain_build 1 12 (new_game session_input empty_disk 5%nat) with
  | Some s' => valid (board s') /\ disk_ok (disk s')
  | None => False
  end.
Proof.
  destruct (run _ _ _ _) as [s'|] eqn:E; [|exfalso; revert E; vm_compute; discriminate].
  apply (run_keeps_valid plain_build 1 12 session_input empty_disk 5%nat s'); [|exact E].
  intros n t Hn. discriminate Hn.
Defined.

Lemma exit_ends_game_witness :
  exists s', run_loop plain_build 1 2 (new_game (print_int 5 ++ [newline]) empty_disk 5%nat) = Some s' /\
    gameRunning s' = false /\ board s' = defaultPuzzle /\ cin s' = [newline].
Proof.
  destruct (exit_ends_game plain_build 1 (new_game (print_int 5 ++ [newline]) empty_disk 5%nat) [newline])
    as (s' & E & Hr & Hb & Hc); [reflexivity|apply stops_newline|reflexivity|].
  exists s'. split; [done|split; [done|split; [|done]]]. rewrite Hb. vm_compute. reflexivity.
Defined.

Lemma eof_loops_forever_witness :
  run_loop plain_build 1 100 (new_game [] empty_disk 5%nat) = None.
Proof. apply eof_loops_forever; [reflexivity|constructor]. Defined.

End Game.
